(** * nano-computed: reactive cells, computed cells and the dependency marker

    A shallow embedding of [src/index.js].  The library installs accessor
    properties on an owner object; user code (derivation functions, change
    callbacks, the top-level driver) only ever touches the library through
    property reads [obj.key] and property writes [obj.key = v].  User code is
    therefore represented as a tree of property accesses ([Prog]), and the
    getters and setters of the source are Rocq functions over an explicit
    [World] holding the module-level variable [Dep], the owner object and the
    console. *)

From stdpp Require Import gmap strings list fin_maps pretty.

Set Default Proof Using "Type".
Set Warnings "-register-all,-clear-no-such-hyp".
Open Scope string_scope.
Open Scope list_scope.
Open Scope stdpp_scope.

(** ** JavaScript values *)

(** Numbers are the integers the programs at hand use (array lengths,
    counters); arrays and object literals are immutable values here, as the
    source never mutates one in place. *)
Inductive Value : Type :=
| VUndef
| VNull
| VBool (b : bool)
| VNum (n : Z)
| VStr (s : string)
| VArr (items : list Value)
| VObj (fields : list (string * Value)).

(** ToBoolean. *)
Definition truthy (v : Value) : bool :=
  match v with
  | VUndef | VNull => false
  | VBool b => b
  | VNum n => negb (n =? 0)%Z
  | VStr s => negb (String.eqb s "")
  | VArr _ | VObj _ => true
  end.

Definition join (sep : string) (parts : list string) : string :=
  match parts with
  | [] => ""
  | p :: ps => fold_left (fun acc q => acc +:+ sep +:+ q) ps p
  end.

(** ToString, as used by ['new done count is ' + x]. *)
Fixpoint to_string (v : Value) : string :=
  match v with
  | VUndef => "undefined"
  | VNull => "null"
  | VBool b => if b then "true" else "false"
  | VNum n => pretty n
  | VStr s => s
  | VArr items =>
      join ","
        (map (fun x => match x with
                       | VUndef | VNull => ""
                       | _ => to_string x
                       end) items)
  | VObj _ => "[object Object]"
  end.

(** [o.name] on an object literal. *)
Fixpoint field (name : string) (fields : list (string * Value)) : Value :=
  match fields with
  | [] => VUndef
  | (k, v) :: rest => if String.eqb k name then v else field name rest
  end.

(** ** User code *)

(** What a JavaScript function passed to (or driving) the library can do:
    return, throw, read or assign a property of the owner object, print,
    and bump an outer counter variable. *)
Inductive Prog (A : Type) : Type :=
| Ret (a : A)
| Throw (e : Value)
| GetProp (key : string) (cont : Value → Prog A)
| SetProp (key : string) (v : Value) (cont : Prog A)
| Log (v : Value) (cont : Prog A)
| Incr (x : string) (cont : Prog A).

Arguments Ret {A} a.
Arguments Throw {A} e.
Arguments GetProp {A} key cont.
Arguments SetProp {A} key v cont.
Arguments Log {A} v cont.
Arguments Incr {A} x cont.

(** ** The world *)

(** The closure [onDependencyUpdated] made by one call of [defineComputed].
    It captures [computeFn] and [updateCallback]; [sub_id] stands for the
    identity of the function object, which is what [Dep === dep] compares:
    every call of [defineComputed] gives its closure an identity of its
    own (the key, unless a closure made earlier already has it). *)
Record Subscriber : Type := mkSub {
  sub_id : string;
  computeFn : Prog Value;
  updateCallback : Value → Prog unit
}.

(** [Dep === dep] *)
Definition same (d dep : Subscriber) : bool :=
  String.eqb (sub_id d) (sub_id dep).

(** A property of the owner object: an ordinary data property, the accessor
    pair of [defineReactive] together with the [val] and [deps] its closures
    share, or the accessor pair of [defineComputed]. *)
Inductive Property : Type :=
| Plain (v : Value)
| Reactive (val : Value) (deps : list Subscriber)
| Computed (s : Subscriber).

(** [locked] holds the keys of the owner object whose property is not
    configurable, and [made] the identities of the closures that
    [defineComputed] has made so far. *)
Record World : Type := mkWorld {
  Dep : option Subscriber;
  props : gmap string Property;
  console : list Value;
  vars : gmap string Z;
  locked : gset string;
  made : gset string
}.

Definition set_Dep (d : option Subscriber) (w : World) : World :=
  mkWorld d (props w) (console w) (vars w) (locked w) (made w).

Definition set_prop (k : string) (p : Property) (w : World) : World :=
  mkWorld (Dep w) (<[k := p]> (props w)) (console w) (vars w)
          (locked w) (made w).

Definition print (v : Value) (w : World) : World :=
  mkWorld (Dep w) (props w) (console w ++ [v]) (vars w) (locked w) (made w).

Definition bump (x : string) (w : World) : World :=
  mkWorld (Dep w) (props w) (console w)
          (<[x := (default 0 (vars w !! x) + 1)%Z]> (vars w))
          (locked w) (made w).

(** [let Dep = null], an empty owner object, nothing printed. *)
Definition initial : World := mkWorld None ∅ [] ∅ ∅ ∅.

Inductive Outcome (A : Type) : Type :=
| Done (a : A)
| Thrown (e : Value)
| OutOfFuel.

Arguments Done {A} a.
Arguments Thrown {A} e.
Arguments OutOfFuel {A}.

(** ** The accessors of [src/index.js] *)

(** The body of the reactive getter: collect [Dep] unless it is already in
    [deps], then return [val]. *)
Definition collect (dep : option Subscriber) (deps : list Subscriber)
  : list Subscriber :=
  match dep with
  | Some d => if existsb (fun dep' => same d dep') deps then deps else deps ++ [d]
  | None => deps
  end.

Definition reactive_get (k : string) (val : Value) (deps : list Subscriber)
    (w : World) : Value * World :=
  (val, set_prop k (Reactive val (collect (Dep w) deps)) w).

Section Accessors.
(** How a function value is called; [run] below ties the knot. *)
Variable call : ∀ A : Type, Prog A → World → Outcome A * World.

(** The computed getter.  When [computeFn] throws, the statements after
    the call are skipped and the exception reaches the reader. *)
Definition computed_get (s : Subscriber) (w : World) : Outcome Value * World :=
  let w1 := set_Dep (Some s) w in
  match call Value (computeFn s) w1 with
  | (Done value, w2) => (Done value, set_Dep None w2)
  | (Thrown e, w2) => (Thrown e, w2)
  | (OutOfFuel, w2) => (OutOfFuel, w2)
  end.

Definition onDependencyUpdated (s : Subscriber) (w : World)
  : Outcome unit * World :=
  match call Value (computeFn s) w with
  | (Done value, w1) => call unit (updateCallback s value) w1
  | (Thrown e, w1) => (Thrown e, w1)
  | (OutOfFuel, w1) => (OutOfFuel, w1)
  end.

(** [deps.forEach(changeFn => changeFn())].  [forEach] fixes the number of
    elements it visits before the first call, and [deps] only ever grows
    at its end, so the elements visited are those of [deps] at the time
    of the write. *)
Fixpoint forEach (deps : list Subscriber) (w : World) : Outcome unit * World :=
  match deps with
  | [] => (Done tt, w)
  | changeFn :: rest =>
      match onDependencyUpdated changeFn w with
      | (Done _, w1) => forEach rest w1
      | (Thrown e, w1) => (Thrown e, w1)
      | (OutOfFuel, w1) => (OutOfFuel, w1)
      end
  end.

(** The reactive setter. *)
Definition reactive_set (k : string) (deps : list Subscriber)
    (newValue : Value) (w : World) : Outcome unit * World :=
  forEach deps (set_prop k (Reactive newValue deps) w).

(** Running a function body. *)
Fixpoint run_body {A : Type} (p : Prog A) (w : World) : Outcome A * World :=
  match p with
  | Ret a => (Done a, w)
  | Throw e => (Thrown e, w)
  | GetProp k cont =>
      match props w !! k with
      | None => run_body (cont VUndef) w
      | Some (Plain v) => run_body (cont v) w
      | Some (Reactive val deps) =>
          let '(v, w1) := reactive_get k val deps w in run_body (cont v) w1
      | Some (Computed s) =>
          match computed_get s w with
          | (Done v, w1) => run_body (cont v) w1
          | (Thrown e, w1) => (Thrown e, w1)
          | (OutOfFuel, w1) => (OutOfFuel, w1)
          end
      end
  | SetProp k v cont =>
      match props w !! k with
      | None | Some (Plain _) => run_body cont (set_prop k (Plain v) w)
      | Some (Reactive _ deps) =>
          match reactive_set k deps v w with
          | (Done _, w1) => run_body cont w1
          | (Thrown e, w1) => (Thrown e, w1)
          | (OutOfFuel, w1) => (OutOfFuel, w1)
          end
      | Some (Computed _) => run_body cont w
      end
  | Log v cont => run_body cont (print v w)
  | Incr x cont => run_body cont (bump x w)
  end.
End Accessors.

(** [fuel] bounds the depth of nested function calls. *)
Fixpoint run (fuel : nat) (A : Type) (p : Prog A) (w : World)
  : Outcome A * World :=
  match fuel with
  | O => (OutOfFuel, w)
  | S n => run_body (run n) p w
  end.

Arguments run fuel {A} p w : simpl never.

(** ** [defineReactive] and [defineComputed] *)

(** [Object.defineProperty(obj, key, { get, set })] throws a TypeError when
    [key] holds a property that is not configurable, and goes through
    otherwise: on a key the object does not have, and on a configurable
    property (a data property made by an assignment, or an accessor that
    was itself defined over one). *)
Definition definable (k : string) (w : World) : bool :=
  match props w !! k with
  | None => true
  | Some _ => bool_decide (k ∉ locked w)
  end.

(** What [Object.defineProperty] leaves behind.  The descriptor names
    neither [configurable] nor [enumerable]: on a new key they default to
    [false], so the accessor is locked; on an existing property they stay
    as they are. *)
Definition install (k : string) (p : Property) (w : World) : World :=
  mkWorld (Dep w) (<[k := p]> (props w)) (console w) (vars w)
          (match props w !! k with
           | None => {[k]} ∪ locked w
           | Some _ => locked w
           end)
          (made w).

(** [function defineReactive (obj, key, val = null)]: the default applies
    when the argument is missing or [undefined]. *)
Definition defineReactive (key : string) (val : Value) (w : World)
  : option World :=
  let val := match val with VUndef => VNull | _ => val end in
  if definable key w then Some (install key (Reactive val []) w) else None.

(** [updateCallback = () => {}] *)
Definition noop : Value → Prog unit := fun _ => Ret tt.

(** The identity of the function object a call of [defineComputed] makes:
    one that no closure made so far has. *)
Definition new_closure (key : string) (w : World) : string :=
  if bool_decide (key ∈ made w) then fresh (made w) else key.

Definition defineComputed (key : string) (computeFn : Prog Value)
    (updateCallback : option (Value → Prog unit)) (w : World) : option World :=
  let onDependencyUpdated :=
    mkSub (new_closure key w) computeFn (default noop updateCallback) in
  if definable key w
  then Some (install key (Computed onDependencyUpdated)
               (mkWorld (Dep w) (props w) (console w) (vars w) (locked w)
                        ({[new_closure key w]} ∪ made w)))
  else None.

(** ** The demo of [src/index.js] *)

Module Demo.

(** [todo.done] inside the filter callback: reading a member of [null] or
    [undefined] is a TypeError. *)
Definition done_of (todo : Value) : option bool :=
  match todo with
  | VUndef | VNull => None
  | VObj fields => Some (truthy (field "done" fields))
  | _ => Some false
  end.

(** [items.filter(todo => todo.done).length] *)
Fixpoint done_count (items : list Value) : option Z :=
  match items with
  | [] => Some 0%Z
  | todo :: rest =>
      match done_of todo, done_count rest with
      | Some b, Some n => Some (if b then (1 + n)%Z else n)
      | _, _ => None
      end
  end.

Definition TypeError : Value := VStr "TypeError".

(** [() => data.todos.filter(todo => todo.done).length] *)
Definition countDone : Prog Value :=
  GetProp "todos" (fun todos =>
    match todos with
    | VArr items =>
        match done_count items with
        | Some n => Ret (VNum n)
        | None => Throw TypeError
        end
    | _ => Throw TypeError
    end).

(** [() => console.log('new done count is ' + data.doneCount)] *)
Definition announce : Value → Prog unit :=
  fun _ =>
    GetProp "doneCount" (fun n =>
      Log (VStr ("new done count is " +:+ to_string n)) (Ret tt)).

Definition todo (text : string) (done : bool) : Value :=
  VObj [("text", VStr text); ("done", VBool done)].

Definition todos (a b c : bool) : Value :=
  VArr [todo "123" a; todo "456" b; todo "789" c].

(** Lines 73 to 79: the two definitions on [data]. *)
Definition data : option World :=
  defineReactive "todos" VUndef initial
    ≫= defineComputed "doneCount" countDone (Some announce).

(** Lines 81 to 105. *)
Definition main : Prog unit :=
  SetProp "todos" (todos false false false)
    (GetProp "doneCount" (fun n =>
       Log n
         (SetProp "todos" (todos true false false)
            (SetProp "todos" (todos true true false)
               (SetProp "todos" (todos true true true) (Ret tt)))))).

(** The driver stopped after its first read of [data.doneCount]. *)
Definition main_until_read : Prog Value :=
  SetProp "todos" (todos false false false)
    (GetProp "doneCount" (fun n => Ret n)).

Definition script {A} (fuel : nat) (p : Prog A) : option (Outcome A * World) :=
  run fuel p <$> data.

End Demo.

(** ** Vocabulary for the statements *)

(** The subscriber collection of a reactive property. *)
Definition deps_of (ps : gmap string Property) (k : string) : list Subscriber :=
  match ps !! k with
  | Some (Reactive _ deps) => deps
  | _ => []
  end.

(** How often the closure [s] occurs in a collection. *)
Definition occurrences (s : Subscriber) (deps : list Subscriber) : nat :=
  length (filter (fun dep => same s dep = true) deps).

(** The value of the counter variable [x]. *)
Definition counter (x : string) (w : World) : Z := default 0%Z (vars w !! x).

(** What reading [obj.k] yields when no function has to run for it: [None]
    for a computed property. *)
Definition peek (ps : gmap string Property) (k : string) : option Value :=
  match ps !! k with
  | None => Some VUndef
  | Some (Plain v) => Some v
  | Some (Reactive val _) => Some val
  | Some (Computed _) => None
  end.

(** A function body is _flat_ when, on the values the properties hold, it
    returns after reading only data and reactive properties, printing and
    counting: it reads no computed property, assigns nothing and does not
    throw.  [flat_value] is then the value it returns. *)
Fixpoint flat_value {A : Type} (ps : gmap string Property) (p : Prog A)
  : option A :=
  match p with
  | Ret a => Some a
  | Throw _ => None
  | GetProp k cont =>
      match peek ps k with
      | Some v => flat_value ps (cont v)
      | None => None
      end
  | SetProp _ _ _ => None
  | Log _ cont => flat_value ps cont
  | Incr _ cont => flat_value ps cont
  end.

(** The properties a flat body reads, in order. *)
Fixpoint reads {A : Type} (ps : gmap string Property) (p : Prog A)
  : list string :=
  match p with
  | GetProp k cont =>
      match peek ps k with
      | Some v => k :: reads ps (cont v)
      | None => []
      end
  | Log _ cont => reads ps cont
  | Incr _ cont => reads ps cont
  | _ => []
  end.

(** What a flat body prints, in order. *)
Fixpoint logs {A : Type} (ps : gmap string Property) (p : Prog A)
  : list Value :=
  match p with
  | GetProp k cont =>
      match peek ps k with
      | Some v => logs ps (cont v)
      | None => []
      end
  | Log v cont => v :: logs ps cont
  | Incr _ cont => logs ps cont
  | _ => []
  end.

(** How often a flat body bumps the counter [x]. *)
Fixpoint incrs {A : Type} (ps : gmap string Property) (x : string)
    (p : Prog A) : Z :=
  match p with
  | GetProp k cont =>
      match peek ps k with
      | Some v => incrs ps x (cont v)
      | None => 0
      end
  | Log _ cont => incrs ps x cont
  | Incr y cont => (if String.eqb y x then 1 else 0) + incrs ps x cont
  | _ => 0
  end%Z.

(** The effect on one property of a flat body running under marker [d]:
    a reactive property that was read has collected [d]. *)
Definition touch (d : option Subscriber) (was_read : bool)
    (o : option Property) : option Property :=
  match o with
  | Some (Reactive val deps) =>
      if was_read then Some (Reactive val (collect d deps)) else o
  | _ => o
  end.

(** Collections hold each closure at most once. *)
Definition deps_unique (ps : gmap string Property) : Prop :=
  ∀ k val deps, ps !! k = Some (Reactive val deps) → NoDup (sub_id <$> deps).

(** Two owner objects that answer every flat read alike. *)
Definition same_view (ps ps' : gmap string Property) : Prop :=
  ∀ k, peek ps k = peek ps' k.

(** A subscriber whose derivation and change callback are both flat, and
    what a notification of it prints. *)
Definition flat_sub (ps : gmap string Property) (d : Subscriber) : Prop :=
  ∃ a, flat_value ps (computeFn d) = Some a
       ∧ flat_value ps (updateCallback d a) = Some tt.

Definition notice (ps : gmap string Property) (d : Subscriber) : list Value :=
  match flat_value ps (computeFn d) with
  | Some a => logs ps (computeFn d) ++ logs ps (updateCallback d a)
  | None => []
  end.

(** Sequencing of outcomes: go on with the value, or stop at the
    exception. *)
Definition and_then {A B : Type} (r : Outcome A * World)
    (k : A → World → Outcome B * World) : Outcome B * World :=
  match r with
  | (Done a, w) => k a w
  | (Thrown e, w) => (Thrown e, w)
  | (OutOfFuel, w) => (OutOfFuel, w)
  end.

(** ** Worlds for the examples *)

Module Example.

(** A fresh owner object after a series of definitions. *)
Definition setup (definitions : list (World → option World)) : World :=
  default initial
    (foldl (fun w define => w ≫= define) (Some initial) definitions).

(** The demo's definitions, nothing assigned yet, and a second reactive
    property [other]. *)
Definition unset : World :=
  setup [defineReactive "todos" VUndef;
         defineComputed "doneCount" Demo.countDone (Some Demo.announce);
         defineReactive "other" (VNum 5)].

(** A derivation that counts its own calls in [x], reads [data.r] twice
    and returns its value. *)
Definition counted (x r : string) : Prog Value :=
  Incr x (GetProp r (fun v => GetProp r (fun _ => Ret v))).

Definition say (tag : string) : Value → Prog unit :=
  fun v => Log (VArr [VStr tag; v]) (Ret tt).

(** One reactive property [r] and two computed ones that read it. *)
Definition pair : World :=
  setup [defineReactive "r" (VNum 1);
         defineComputed "first" (counted "n1" "r") (Some (say "first"));
         defineComputed "second" (counted "n2" "r") (Some (say "second"))].

(** [outer] reads the computed [inner] and then the reactive [b];
    [inner] reads the reactive [a]. *)
Definition nested : World :=
  setup [defineReactive "a" (VNum 1);
         defineReactive "b" (VNum 2);
         defineComputed "inner" (GetProp "a" Ret) None;
         defineComputed "outer"
           (GetProp "inner" (fun _ => GetProp "b" Ret)) None].

(** The change callback of [watcher] reads the computed [total]. *)
Definition chained : World :=
  setup [defineReactive "a" (VNum 1);
         defineReactive "b" (VNum 2);
         defineComputed "total" (GetProp "b" Ret) None;
         defineComputed "watcher" (GetProp "a" Ret)
           (Some (fun _ => GetProp "total" (fun t => Log t (Ret tt))))].

End Example.

(** ** More vocabulary *)

(** The key holds no accessor: an assignment to it stores a data
    property. *)
Definition is_data (k : string) (w : World) : bool :=
  match props w !! k with
  | None | Some (Plain _) => true
  | Some (Reactive _ _) | Some (Computed _) => false
  end.

(** The exception a body throws when, up to the [throw], it only reads data
    and reactive properties, prints and counts. *)
Fixpoint flat_error {A : Type} (ps : gmap string Property) (p : Prog A)
  : option Value :=
  match p with
  | Ret _ => None
  | Throw e => Some e
  | GetProp k cont =>
      match peek ps k with
      | Some v => flat_error ps (cont v)
      | None => None
      end
  | SetProp _ _ _ => None
  | Log _ cont => flat_error ps cont
  | Incr _ cont => flat_error ps cont
  end.

(** ** The reactive property without dependency tracking *)

(** [src/unnamed/part_000]: [defineReactive (obj, key, val)] installs a
    getter that returns [val] and a setter that replaces it; there is no
    default value, no [Dep] and no [deps]. *)
Module Simple.

(** A property of the owner object: a data property (made by an
    assignment, hence configurable), or the accessor pair with the [val]
    its two closures share and its [configurable] attribute. *)
Inductive Slot : Type :=
| Data (v : Value)
| Accessor (configurable : bool) (val : Value).

(** [Object.defineProperty(obj, key, { get, set })]: on a new key the
    accessor is not configurable; over a configurable property it stays
    configurable; over a property that is not configurable it throws. *)
Definition defineReactive (key : string) (val : Value)
    (obj : gmap string Slot) : option (gmap string Slot) :=
  match obj !! key with
  | None => Some (<[key := Accessor false val]> obj)
  | Some (Data _) => Some (<[key := Accessor true val]> obj)
  | Some (Accessor true _) => Some (<[key := Accessor true val]> obj)
  | Some (Accessor false _) => None
  end.

(** [obj.key] *)
Definition get (key : string) (obj : gmap string Slot) : Value :=
  match obj !! key with
  | None => VUndef
  | Some (Data v) => v
  | Some (Accessor _ val) => val
  end.

(** [obj.key = newValue] *)
Definition set (key : string) (newValue : Value) (obj : gmap string Slot)
  : gmap string Slot :=
  match obj !! key with
  | Some (Accessor c _) => <[key := Accessor c newValue]> obj
  | _ => <[key := Data newValue]> obj
  end.

(** Lines 12 to 14: what the demo prints. *)
Definition demo : option (list Value) :=
  (fun obj => [get "foo" obj]) <$> defineReactive "foo" (VNum 123) ∅.

End Simple.

(** ** More worlds for the examples *)

Module Scenario.

(** [loop] is computed from itself. *)
Definition looping : World :=
  Example.setup [defineComputed "loop" (GetProp "loop" Ret) None].

(** The demo's definitions, with [todos] assigned and [doneCount] read
    once. *)
Definition watching : World :=
  snd (run 2 Demo.main_until_read
         (Example.setup
            [defineReactive "todos" VUndef;
             defineComputed "doneCount" Demo.countDone (Some Demo.announce)])).

(** [Example.pair] after a read of [first] and a read of [second]. *)
Definition subscribed : World :=
  snd (run 2 (GetProp "first" (fun _ => GetProp "second" Ret)) Example.pair).

End Scenario.

(** ** The accessors, with a record of the getter events *)

(** The computed getter is entered ([Dep = onDependencyUpdated] has run)
    and left ([Dep = null] has run; a getter whose derivation throws is
    entered and never left). *)
Inductive Event : Type :=
| Enter (s : Subscriber)
| Leave (s : Subscriber).

(** The accessors once more, line for line, threading next to the world
    the list of getter events so far.  Forgetting the list gives [run]
    back. *)
Section TracedAccessors.
Variable call :
  ∀ A : Type, Prog A → World → list Event → Outcome A * World * list Event.

Definition computed_get_traced (s : Subscriber) (w : World) (tr : list Event)
  : Outcome Value * World * list Event :=
  let w1 := set_Dep (Some s) w in
  match call Value (computeFn s) w1 (tr ++ [Enter s]) with
  | (Done value, w2, tr2) => (Done value, set_Dep None w2, tr2 ++ [Leave s])
  | (Thrown e, w2, tr2) => (Thrown e, w2, tr2)
  | (OutOfFuel, w2, tr2) => (OutOfFuel, w2, tr2)
  end.

Definition onDependencyUpdated_traced (s : Subscriber) (w : World)
    (tr : list Event) : Outcome unit * World * list Event :=
  match call Value (computeFn s) w tr with
  | (Done value, w1, tr1) => call unit (updateCallback s value) w1 tr1
  | (Thrown e, w1, tr1) => (Thrown e, w1, tr1)
  | (OutOfFuel, w1, tr1) => (OutOfFuel, w1, tr1)
  end.

Fixpoint forEach_traced (deps : list Subscriber) (w : World) (tr : list Event)
  : Outcome unit * World * list Event :=
  match deps with
  | [] => (Done tt, w, tr)
  | changeFn :: rest =>
      match onDependencyUpdated_traced changeFn w tr with
      | (Done _, w1, tr1) => forEach_traced rest w1 tr1
      | (Thrown e, w1, tr1) => (Thrown e, w1, tr1)
      | (OutOfFuel, w1, tr1) => (OutOfFuel, w1, tr1)
      end
  end.

Definition reactive_set_traced (k : string) (deps : list Subscriber)
    (newValue : Value) (w : World) (tr : list Event)
  : Outcome unit * World * list Event :=
  forEach_traced deps (set_prop k (Reactive newValue deps) w) tr.

Fixpoint run_body_traced {A : Type} (p : Prog A) (w : World)
    (tr : list Event) : Outcome A * World * list Event :=
  match p with
  | Ret a => (Done a, w, tr)
  | Throw e => (Thrown e, w, tr)
  | GetProp k cont =>
      match props w !! k with
      | None => run_body_traced (cont VUndef) w tr
      | Some (Plain v) => run_body_traced (cont v) w tr
      | Some (Reactive val deps) =>
          let '(v, w1) := reactive_get k val deps w in
          run_body_traced (cont v) w1 tr
      | Some (Computed s) =>
          match computed_get_traced s w tr with
          | (Done v, w1, tr1) => run_body_traced (cont v) w1 tr1
          | (Thrown e, w1, tr1) => (Thrown e, w1, tr1)
          | (OutOfFuel, w1, tr1) => (OutOfFuel, w1, tr1)
          end
      end
  | SetProp k v cont =>
      match props w !! k with
      | None | Some (Plain _) =>
          run_body_traced cont (set_prop k (Plain v) w) tr
      | Some (Reactive _ deps) =>
          match reactive_set_traced k deps v w tr with
          | (Done _, w1, tr1) => run_body_traced cont w1 tr1
          | (Thrown e, w1, tr1) => (Thrown e, w1, tr1)
          | (OutOfFuel, w1, tr1) => (OutOfFuel, w1, tr1)
          end
      | Some (Computed _) => run_body_traced cont w tr
      end
  | Log v cont => run_body_traced cont (print v w) tr
  | Incr x cont => run_body_traced cont (bump x w) tr
  end.
End TracedAccessors.

Fixpoint run_traced (fuel : nat) (A : Type) (p : Prog A) (w : World)
    (tr : list Event) : Outcome A * World * list Event :=
  match fuel with
  | O => (OutOfFuel, w, tr)
  | S n => run_body_traced (run_traced n) p w tr
  end.

Arguments run_traced fuel {A} p w tr : simpl never.

(** The getter events of a run. *)
Definition getter_events (fuel : nat) {A : Type} (p : Prog A) (w : World)
  : list Event :=
  snd (run_traced fuel p w []).

(** What the getter events leave in [Dep], starting from [d0]. *)
Definition marker_after (d0 : option Subscriber) (tr : list Event)
  : option Subscriber :=
  match last tr with
  | None => d0
  | Some (Enter s) => Some s
  | Some (Leave _) => None
  end.

(** ** A cell that starts to depend on another later on *)

Module Late.

(** [() => data.flag ? data.r : 0] *)
Definition guarded : Prog Value :=
  GetProp "flag" (fun flag =>
    if truthy flag then GetProp "r" Ret else Ret (VNum 0)).

(** [early] reads [r] only once [flag] is set; [steady] always reads
    [r]. *)
Definition world : World :=
  Example.setup
    [defineReactive "flag" (VBool false);
     defineReactive "r" (VNum 1);
     defineComputed "early" guarded (Some (Example.say "early"));
     defineComputed "steady" (GetProp "r" Ret) (Some (Example.say "steady"))].

(** Read [early], read [steady], set [flag], read [early] again, write
    [r]. *)
Definition main : Prog unit :=
  GetProp "early" (fun _ =>
  GetProp "steady" (fun _ =>
  SetProp "flag" (VBool true)
    (GetProp "early" (fun _ =>
     SetProp "r" (VNum 10) (Ret tt))))).

End Late.

(** ** Basic facts *)

Lemma same_spec (a b : Subscriber) : same a b = true ↔ sub_id a = sub_id b.
Proof. unfold same. apply String.eqb_eq. Qed.

Lemma same_refl (a : Subscriber) : same a a = true.
Proof. by apply same_spec. Qed.

Lemma existsb_same_spec (d : Subscriber) (deps : list Subscriber) :
  existsb (fun dep => same d dep) deps = true ↔ sub_id d ∈ sub_id <$> deps.
Proof.
  induction deps as [|x deps IH]; simpl.
  - split; [done | by intros ?%elem_of_nil].
  - rewrite orb_true_iff, IH, elem_of_cons, same_spec. tauto.
Qed.

Lemma collect_None (deps : list Subscriber) : collect None deps = deps.
Proof. done. Qed.

Lemma collect_present (d : Subscriber) (deps : list Subscriber) :
  sub_id d ∈ sub_id <$> deps → collect (Some d) deps = deps.
Proof.
  intros H%existsb_same_spec. unfold collect. by rewrite H.
Qed.

Lemma collect_absent (d : Subscriber) (deps : list Subscriber) :
  sub_id d ∉ sub_id <$> deps → collect (Some d) deps = deps ++ [d].
Proof.
  intros H. unfold collect.
  destruct (existsb _ deps) eqn:E; [|done].
  by apply existsb_same_spec in E.
Qed.

Lemma collect_idem (d : option Subscriber) (deps : list Subscriber) :
  collect d (collect d deps) = collect d deps.
Proof.
  destruct d as [d|]; [|done].
  destruct (decide (sub_id d ∈ sub_id <$> deps)) as [Hin|Hout].
  - by rewrite !(collect_present _ _ Hin).
  - rewrite (collect_absent _ _ Hout). apply collect_present.
    rewrite fmap_app. apply elem_of_app. right. by apply list_elem_of_singleton.
Qed.

Lemma collect_unique (d : option Subscriber) (deps : list Subscriber) :
  NoDup (sub_id <$> deps) → NoDup (sub_id <$> collect d deps).
Proof.
  intros Hnd. destruct d as [d|]; [|done].
  destruct (decide (sub_id d ∈ sub_id <$> deps)) as [Hin|Hout].
  - by rewrite collect_present.
  - rewrite (collect_absent _ _ Hout), fmap_app. simpl.
    apply NoDup_app. split_and!; [done | | apply NoDup_singleton].
    intros x Hx ->%list_elem_of_singleton. done.
Qed.

Lemma collect_prefix (d : option Subscriber) (deps : list Subscriber) :
  deps `prefix_of` collect d deps.
Proof.
  destruct d as [d|]; [|done]. unfold collect.
  destruct (existsb _ deps); [done | by apply prefix_app_r].
Qed.

Lemma occurrences_absent (s : Subscriber) (deps : list Subscriber) :
  sub_id s ∉ sub_id <$> deps → occurrences s deps = 0.
Proof.
  unfold occurrences. induction deps as [|x deps IH]; [done|].
  rewrite fmap_cons, not_elem_of_cons. intros [Hne Hout].
  rewrite filter_cons. destruct (decide (same s x = true)) as [E|E].
  - by apply same_spec in E.
  - by apply IH.
Qed.

Lemma occurrences_app (s : Subscriber) (l1 l2 : list Subscriber) :
  occurrences s (l1 ++ l2) = occurrences s l1 + occurrences s l2.
Proof. unfold occurrences. by rewrite filter_app, length_app. Qed.

Lemma occurrences_self (s : Subscriber) : occurrences s [s] = 1.
Proof.
  unfold occurrences. rewrite filter_cons.
  destruct (decide (same s s = true)) as [|E]; [done|].
  by rewrite same_refl in E.
Qed.

Lemma occurrences_present (s : Subscriber) (deps : list Subscriber) :
  NoDup (sub_id <$> deps) → sub_id s ∈ sub_id <$> deps →
  occurrences s deps = 1.
Proof.
  induction deps as [|x deps IH].
  - by intros _ ?%elem_of_nil.
  - rewrite fmap_cons, NoDup_cons. intros [Hx Hnd] Hin.
    change (x :: deps) with ([x] ++ deps). rewrite occurrences_app.
    apply elem_of_cons in Hin as [Heq|Hin].
    + rewrite (occurrences_absent s deps) by (by rewrite Heq).
      unfold occurrences. rewrite filter_cons.
      destruct (decide (same s x = true)) as [|E]; [done|].
      by rewrite (proj2 (same_spec s x) Heq) in E.
    + rewrite (IH Hnd Hin).
      assert (sub_id s ≠ sub_id x) as Hne by (intros E; congruence).
      unfold occurrences at 1. rewrite filter_cons.
      destruct (decide (same s x = true)) as [E%same_spec|]; done.
Qed.

(** Once collected, exactly once. *)
Lemma occurrences_collect (s : Subscriber) (deps : list Subscriber) :
  NoDup (sub_id <$> deps) → occurrences s (collect (Some s) deps) = 1.
Proof.
  intros Hnd. destruct (decide (sub_id s ∈ sub_id <$> deps)) as [Hin|Hout].
  - rewrite collect_present by done. by apply occurrences_present.
  - rewrite collect_absent, occurrences_app, occurrences_self by done.
    by rewrite occurrences_absent.
Qed.

(** ** Flat bodies *)

Lemma same_view_refl ps : same_view ps ps.
Proof. done. Qed.

Lemma same_view_collect ps k val deps deps' :
  ps !! k = Some (Reactive val deps) →
  same_view (<[k := Reactive val deps']> ps) ps.
Proof.
  intros Hk k'. unfold peek.
  destruct (decide (k = k')) as [<-|Hne].
  - by rewrite lookup_insert_eq, Hk.
  - by rewrite lookup_insert_ne.
Qed.

Section FlatExt.
Context {A : Type}.
Implicit Types p : Prog A.

Lemma flat_value_ext ps ps' p :
  same_view ps ps' → flat_value ps p = flat_value ps' p.
Proof.
  intros Hv. induction p as [| |k cont IH| | |]; simpl; try done.
  rewrite (Hv k). destruct (peek ps' k); [apply IH | done].
Qed.

Lemma reads_ext ps ps' p : same_view ps ps' → reads ps p = reads ps' p.
Proof.
  intros Hv. induction p as [| |k cont IH| | |]; simpl; try done.
  rewrite (Hv k). destruct (peek ps' k); [by rewrite IH | done].
Qed.

Lemma logs_ext ps ps' p : same_view ps ps' → logs ps p = logs ps' p.
Proof.
  intros Hv. induction p as [| |k cont IH| |? ? IH|]; simpl; try done.
  - rewrite (Hv k). destruct (peek ps' k); [apply IH | done].
  - by rewrite IH.
Qed.

Lemma incrs_ext ps ps' x p : same_view ps ps' → incrs ps x p = incrs ps' x p.
Proof.
  intros Hv. induction p as [| |k cont IH| | |? ? IH]; simpl; try done.
  - rewrite (Hv k). destruct (peek ps' k); [apply IH | done].
  - by rewrite IH.
Qed.
End FlatExt.

Lemma touch_None b o : touch None b o = o.
Proof. destruct o as [[]|], b; done. Qed.

Lemma counter_bump x y w :
  counter x (bump y w) = (counter x w + if String.eqb y x then 1 else 0)%Z.
Proof.
  unfold counter, bump. simpl.
  destruct (String.eqb_spec y x) as [->|Hne].
  - by rewrite lookup_insert_eq.
  - rewrite lookup_insert_ne by done. lia.
Qed.

(** A flat body runs to its value whatever [call] is, keeps the marker, and
    changes the world only by what it collects, prints and counts. *)
Lemma run_flat call {A} (p : Prog A) : ∀ w a,
  flat_value (props w) p = Some a →
  ∃ w', run_body call p w = (Done a, w')
    ∧ Dep w' = Dep w
    ∧ (∀ k, props w' !! k
            = touch (Dep w) (bool_decide (k ∈ reads (props w) p)) (props w !! k))
    ∧ console w' = console w ++ logs (props w) p
    ∧ (∀ x, counter x w' = (counter x w + incrs (props w) x p)%Z).
Proof.
  induction p as [a0|e|k cont IH|k v cont IH|v cont IH|y cont IH];
    intros w a Hflat; simpl in Hflat; try done.
  - injection Hflat as ->. exists w. simpl. split_and!; try done.
    + intros k. by destruct (props w !! k) as [[]|].
    + by rewrite app_nil_r.
    + intros x. lia.
  - simpl. unfold peek in *.
    destruct (props w !! k) as [[v|val deps|s]|] eqn:Hk; try done.
    + destruct (IH v w a Hflat) as (w' & Hrun & HDep & Hprops & Hcon & Hctr).
      exists w'. split_and!; try done.
      intros k'. rewrite Hprops.
      destruct (decide (k' = k)) as [->|Hne].
      * rewrite Hk. done.
      * destruct (props w !! k') as [[]|]; try done.
        apply f_equal2; [|done]. f_equal.
        apply bool_decide_ext. rewrite elem_of_cons. naive_solver.
    + set (w1 := set_prop k (Reactive val (collect (Dep w) deps)) w).
      assert (same_view (props w1) (props w)) as Hview
        by (by eapply same_view_collect).
      rewrite <-(flat_value_ext _ _ _ Hview) in Hflat.
      destruct (IH val w1 a Hflat) as (w' & Hrun & HDep & Hprops & Hcon & Hctr).
      exists w'. rewrite (reads_ext _ _ _ Hview) in Hprops.
      rewrite (logs_ext _ _ _ Hview) in Hcon.
      split_and!; try done.
      * intros k'. rewrite Hprops. subst w1. simpl.
        destruct (decide (k' = k)) as [->|Hne].
        -- rewrite lookup_insert_eq, Hk. simpl.
           rewrite (bool_decide_eq_true_2 (k ∈ k :: _)) by (apply elem_of_cons; by left).
           rewrite collect_idem. by case_bool_decide.
        -- rewrite lookup_insert_ne by done.
           destruct (props w !! k') as [[]|]; try done.
           apply f_equal2; [|done]. f_equal.
           apply bool_decide_ext. rewrite elem_of_cons. naive_solver.
      * intros x. rewrite Hctr. by rewrite (incrs_ext _ _ _ _ Hview).
    + destruct (IH VUndef w a Hflat) as (w' & Hrun & HDep & Hprops & Hcon & Hctr).
      exists w'. split_and!; try done.
      intros k'. rewrite Hprops.
      destruct (decide (k' = k)) as [->|Hne].
      * by rewrite Hk.
      * destruct (props w !! k') as [[]|]; try done.
        apply f_equal2; [|done]. f_equal.
        apply bool_decide_ext. rewrite elem_of_cons. naive_solver.
  - destruct (IH (print v w) a Hflat) as (w' & Hrun & HDep & Hprops & Hcon & Hctr).
    exists w'. simpl in *. split_and!; try done.
    by rewrite Hcon, <-app_assoc.
  - destruct (IH (bump y w) a Hflat) as (w' & Hrun & HDep & Hprops & Hcon & Hctr).
    exists w'. simpl in *. split_and!; try done.
    intros x. rewrite Hctr, counter_bump. lia.
Qed.

Lemma touch_same_view ps ps' d (was_read : string → bool) :
  (∀ k, ps' !! k = touch d (was_read k) (ps !! k)) → same_view ps' ps.
Proof.
  intros H k. unfold peek. rewrite H.
  destruct (ps !! k) as [[]|], (was_read k); done.
Qed.

Lemma touch_None_eq (ps ps' : gmap string Property) (was_read : string → bool) :
  (∀ k, ps' !! k = touch None (was_read k) (ps !! k)) → ps' = ps.
Proof. intros H. apply map_eq. intros k. by rewrite H, touch_None. Qed.

Section FlatAccessors.
(** [call] runs bodies like [run_body] does, one level down. *)
Context (call call' : ∀ A : Type, Prog A → World → Outcome A * World).
Context (call_eq : ∀ A p w, call A p w = run_body call' p w).

Lemma computed_get_flat s w a :
  flat_value (props w) (computeFn s) = Some a →
  ∃ w', computed_get call s w = (Done a, w')
    ∧ Dep w' = None
    ∧ (∀ k, props w' !! k
            = touch (Some s)
                (bool_decide (k ∈ reads (props w) (computeFn s)))
                (props w !! k))
    ∧ console w' = console w ++ logs (props w) (computeFn s)
    ∧ (∀ x, counter x w'
            = (counter x w + incrs (props w) x (computeFn s))%Z).
Proof using call_eq.
  intros Hflat. unfold computed_get. rewrite call_eq.
  destruct (run_flat call' (computeFn s) (set_Dep (Some s) w) a Hflat)
    as (w2 & -> & HDep & Hprops & Hcon & Hctr).
  exists (set_Dep None w2). by split_and!.
Qed.

Lemma onDependencyUpdated_flat s w :
  Dep w = None → flat_sub (props w) s →
  ∃ w', onDependencyUpdated call s w = (Done tt, w')
    ∧ Dep w' = None
    ∧ props w' = props w
    ∧ console w' = console w ++ notice (props w) s.
Proof using call_eq.
  intros HDep (a & Hd & Hc). unfold onDependencyUpdated, notice.
  rewrite call_eq, Hd.
  destruct (run_flat call' (computeFn s) w a Hd)
    as (w1 & -> & HDep1 & Hprops1 & Hcon1 & _).
  rewrite HDep in Hprops1. apply touch_None_eq in Hprops1.
  rewrite call_eq. rewrite <-Hprops1 in Hc.
  destruct (run_flat call' (updateCallback s a) w1 tt Hc)
    as (w2 & -> & HDep2 & Hprops2 & Hcon2 & _).
  rewrite HDep1, HDep in Hprops2. apply touch_None_eq in Hprops2.
  exists w2. split_and!; [done | congruence | congruence |].
  rewrite Hcon2, Hcon1, Hprops1. by rewrite app_assoc.
Qed.

Lemma forEach_flat deps : ∀ w,
  Dep w = None → Forall (flat_sub (props w)) deps →
  ∃ w', forEach call deps w = (Done tt, w')
    ∧ Dep w' = None
    ∧ props w' = props w
    ∧ console w' = console w ++ concat (notice (props w) <$> deps).
Proof using call_eq.
  induction deps as [|d deps IH]; intros w HDep Hall; simpl.
  - exists w. split_and!; try done. by rewrite app_nil_r.
  - apply Forall_cons in Hall as [Hd Hall].
    destruct (onDependencyUpdated_flat d w HDep Hd)
      as (w1 & -> & HDep1 & Hprops1 & Hcon1).
    rewrite <-Hprops1 in Hall.
    destruct (IH w1 HDep1 Hall) as (w2 & -> & HDep2 & Hprops2 & Hcon2).
    exists w2. split_and!; [done | done | congruence |].
    rewrite Hcon2, Hcon1, Hprops1. by rewrite app_assoc.
Qed.
End FlatAccessors.

(** Visiting a collection is visiting its front, then its back. *)
Lemma forEach_app call (l1 l2 : list Subscriber) (w : World) :
  forEach call (l1 ++ l2) w
  = match forEach call l1 w with
    | (Done _, w1) => forEach call l2 w1
    | (Thrown e, w1) => (Thrown e, w1)
    | (OutOfFuel, w1) => (OutOfFuel, w1)
    end.
Proof.
  revert w. induction l1 as [|d l1 IH]; intros w; simpl; [done|].
  destruct (onDependencyUpdated call d w) as [[[]| |] w1]; auto.
Qed.

Lemma set_prop_id k p w : props w !! k = Some p → set_prop k p w = w.
Proof.
  intros H. destruct w as [d ps c vs lk md]. unfold set_prop. simpl in *.
  by rewrite insert_id.
Qed.

Lemma run_S fuel A (p : Prog A) w : run (S fuel) p w = run_body (@run fuel) p w.
Proof. done. Qed.

(** The property read and write of a body, by kind of property. *)
Lemma run_body_get_computed call {A} k s (cont : Value → Prog A) w :
  props w !! k = Some (Computed s) →
  run_body call (GetProp k cont) w
  = match computed_get call s w with
    | (Done v, w1) => run_body call (cont v) w1
    | (Thrown e, w1) => (Thrown e, w1)
    | (OutOfFuel, w1) => (OutOfFuel, w1)
    end.
Proof. intros Hk. simpl. by rewrite Hk. Qed.

Lemma run_body_set_reactive call {A} k val deps v (cont : Prog A) w :
  props w !! k = Some (Reactive val deps) →
  run_body call (SetProp k v cont) w
  = match reactive_set call k deps v w with
    | (Done _, w1) => run_body call cont w1
    | (Thrown e, w1) => (Thrown e, w1)
    | (OutOfFuel, w1) => (OutOfFuel, w1)
    end.
Proof. intros Hk. simpl. by rewrite Hk. Qed.

Lemma same_view_trans ps1 ps2 ps3 :
  same_view ps1 ps2 → same_view ps2 ps3 → same_view ps1 ps3.
Proof. intros H12 H23 k. by rewrite H12. Qed.

Lemma same_view_assign ps ps' r v deps deps' :
  same_view ps ps' →
  same_view (<[r := Reactive v deps]> ps) (<[r := Reactive v deps']> ps').
Proof.
  intros Hv k. specialize (Hv k). unfold peek in *.
  destruct (decide (r = k)) as [->|Hne].
  - by rewrite !lookup_insert_eq.
  - by rewrite !lookup_insert_ne.
Qed.

Lemma flat_sub_ext ps ps' d : same_view ps ps' → flat_sub ps d → flat_sub ps' d.
Proof.
  intros Hv (a & Hd & Hc). exists a.
  by rewrite <-!(flat_value_ext _ _ _ Hv).
Qed.

Lemma notice_ext ps ps' d : same_view ps ps' → notice ps d = notice ps' d.
Proof.
  intros Hv. unfold notice. rewrite (flat_value_ext _ _ _ Hv).
  destruct (flat_value ps' (computeFn d)); [|done].
  by rewrite !(logs_ext _ _ _ Hv).
Qed.

(** A read of a computed cell with a flat derivation, inside a body. *)
Lemma computed_read_step fuel {A} k s (cont : Value → Prog A) w a :
  props w !! k = Some (Computed s) →
  flat_value (props w) (computeFn s) = Some a →
  ∃ w1,
    run_body (@run (S fuel)) (GetProp k cont) w
    = run_body (@run (S fuel)) (cont a) w1
    ∧ Dep w1 = None
    ∧ (∀ r, props w1 !! r
            = touch (Some s)
                (bool_decide (r ∈ reads (props w) (computeFn s)))
                (props w !! r))
    ∧ console w1 = console w ++ logs (props w) (computeFn s).
Proof.
  intros Hk Hflat. rewrite (run_body_get_computed _ _ _ _ _ Hk).
  destruct (computed_get_flat (@run (S fuel)) (@run fuel) (run_S fuel)
              s w a Hflat) as (w1 & -> & HDep & Hprops & Hcon & _).
  by exists w1.
Qed.

(** Take the computed read at the head of the body in the goal. *)
Tactic Notation "read_step" constr(k) constr(s) constr(w) constr(a)
    constr(Hk) constr(Hf) "as" simple_intropattern(pat) :=
  lazymatch goal with
  | |- context [run_body (@run (S ?fuel)) (GetProp k ?cont) w] =>
      destruct (computed_read_step fuel k s cont w a Hk Hf) as pat
  end.

(** ** Reads and writes with flat subscribers *)

(** One read of a computed cell with a flat derivation, in full. *)
Lemma computed_read_flat fuel k s w a :
  props w !! k = Some (Computed s) →
  flat_value (props w) (computeFn s) = Some a →
  ∃ w', run (S (S fuel)) (GetProp k Ret) w = (Done a, w')
    ∧ Dep w' = None
    ∧ (∀ r, props w' !! r
            = touch (Some s)
                (bool_decide (r ∈ reads (props w) (computeFn s)))
                (props w !! r))
    ∧ console w' = console w ++ logs (props w) (computeFn s)
    ∧ (∀ x, counter x w'
            = (counter x w + incrs (props w) x (computeFn s))%Z).
Proof.
  intros Hk Hflat. rewrite run_S, (run_body_get_computed _ _ _ _ _ Hk).
  destruct (computed_get_flat (@run (S fuel)) (@run fuel) (run_S fuel)
              s w a Hflat) as (w' & -> & H).
  by exists w'.
Qed.

(** A write whose subscribers are all flat, made with the marker empty:
    the body goes on in a world that differs from the old one by the new
    value and by what the notifications printed and counted. *)
Lemma write_flat fuel {A} r val deps v (cont : Prog A) w :
  props w !! r = Some (Reactive val deps) →
  Dep w = None →
  Forall (flat_sub (props (set_prop r (Reactive v deps) w))) deps →
  ∃ w1,
    run_body (@run (S fuel)) (SetProp r v cont) w
    = run_body (@run (S fuel)) cont w1
    ∧ Dep w1 = None
    ∧ props w1 = <[r := Reactive v deps]> (props w)
    ∧ console w1
      = console w
        ++ concat (notice (props (set_prop r (Reactive v deps) w)) <$> deps).
Proof.
  intros Hr HDep Hall.
  rewrite (run_body_set_reactive _ r val deps v cont w Hr).
  unfold reactive_set.
  destruct (forEach_flat (@run (S fuel)) (@run fuel) (run_S fuel) deps
              (set_prop r (Reactive v deps) w) HDep Hall)
    as (w1 & -> & HDep1 & Hprops1 & Hcon1).
  by exists w1.
Qed.

(** ** What every run preserves *)

Section Invariant.
Variable P : World → Prop.
Hypothesis P_activate : ∀ w k s,
  P w → props w !! k = Some (Computed s) → P (set_Dep (Some s) w).
Hypothesis P_deactivate : ∀ w, P w → P (set_Dep None w).
Hypothesis P_collect : ∀ w k val deps,
  P w → props w !! k = Some (Reactive val deps) →
  P (set_prop k (Reactive val (collect (Dep w) deps)) w).
Hypothesis P_assign : ∀ w k val deps v,
  P w → props w !! k = Some (Reactive val deps) →
  P (set_prop k (Reactive v deps) w).
Hypothesis P_plain : ∀ w k v,
  P w → is_data k w = true → P (set_prop k (Plain v) w).
Hypothesis P_print : ∀ w v, P w → P (print v w).
Hypothesis P_bump : ∀ w x, P w → P (bump x w).

Section Body.
Variable call : ∀ A : Type, Prog A → World → Outcome A * World.
Hypothesis call_keeps : ∀ A (p : Prog A) w, P w → P (snd (call A p w)).

Lemma onDependencyUpdated_keeps s w :
  P w → P (snd (onDependencyUpdated call s w)).
Proof using call_keeps.
  intros HP. unfold onDependencyUpdated.
  pose proof (call_keeps _ (computeFn s) w HP) as H1.
  destruct (call Value (computeFn s) w) as [[value| |] w1]; simpl in *;
    auto.
Qed.

Lemma forEach_keeps deps : ∀ w, P w → P (snd (forEach call deps w)).
Proof using call_keeps.
  induction deps as [|d deps IH]; intros w HP; simpl; [done|].
  pose proof (onDependencyUpdated_keeps d w HP) as H1.
  destruct (onDependencyUpdated call d w) as [[[]| |] w1]; simpl in *;
    auto.
Qed.

Lemma run_body_keeps {A} (p : Prog A) : ∀ w,
  P w → P (snd (run_body call p w)).
Proof using All.
  induction p as [a|e|k cont IH|k v cont IH|v cont IH|x cont IH];
    intros w HP; simpl; try done.
  - destruct (props w !! k) as [[v|val deps|s]|] eqn:Hk.
    + by apply IH.
    + apply IH. by eapply P_collect.
    + unfold computed_get.
      pose proof (call_keeps _ (computeFn s) _
                    (P_activate w k s HP Hk)) as H1.
      destruct (call Value (computeFn s) (set_Dep (Some s) w))
        as [[value| |] w2]; simpl in *; auto.
    + by apply IH.
  - destruct (props w !! k) as [[v0|val deps|s]|] eqn:Hk.
    + apply IH, P_plain; [done|]. unfold is_data. by rewrite Hk.
    + unfold reactive_set.
      pose proof (forEach_keeps deps _ (P_assign w k val deps v HP Hk))
        as H1.
      destruct (forEach call deps (set_prop k (Reactive v deps) w))
        as [[[]| |] w1]; simpl in *; auto.
    + by apply IH.
    + apply IH, P_plain; [done|]. unfold is_data. by rewrite Hk.
  - auto.
  - auto.
Qed.
End Body.

Lemma run_keeps fuel : ∀ A (p : Prog A) w, P w → P (snd (run fuel p w)).
Proof using All.
  induction fuel as [|fuel IH]; intros A p w HP; [done|].
  rewrite run_S. by apply run_body_keeps.
Qed.
End Invariant.

Lemma deps_of_insert_ne ps k k' p :
  k ≠ k' → deps_of (<[k := p]> ps) k' = deps_of ps k'.
Proof. intros Hne. unfold deps_of. by rewrite lookup_insert_ne. Qed.

Lemma deps_of_insert_eq ps k val deps :
  deps_of (<[k := Reactive val deps]> ps) k = deps.
Proof. unfold deps_of. by rewrite lookup_insert_eq. Qed.

Lemma deps_of_insert_plain ps k v k' :
  deps_of ps k = [] → deps_of (<[k := Plain v]> ps) k' = deps_of ps k'.
Proof.
  intros Hk. destruct (decide (k = k')) as [<-|Hne].
  - rewrite Hk. unfold deps_of. by rewrite lookup_insert_eq.
  - by apply deps_of_insert_ne.
Qed.

Lemma is_data_deps_of k w : is_data k w = true → deps_of (props w) k = [].
Proof.
  unfold is_data, deps_of. by destruct (props w !! k) as [[]|].
Qed.

(** Collections stay free of duplicates. *)
Lemma deps_unique_run fuel {A} (p : Prog A) w :
  deps_unique (props w) → deps_unique (props (snd (run fuel p w))).
Proof.
  apply (run_keeps (λ w, deps_unique (props w))); clear.
  - done.
  - done.
  - intros w k val deps HP Hk k' val' deps'. simpl.
    destruct (decide (k = k')) as [<-|Hne].
    + rewrite lookup_insert_eq. intros [= <- <-].
      apply collect_unique. by eapply HP.
    + rewrite lookup_insert_ne by done. apply HP.
  - intros w k val deps v HP Hk k' val' deps'. simpl.
    destruct (decide (k = k')) as [<-|Hne].
    + rewrite lookup_insert_eq. intros [= <- <-]. by eapply HP.
    + rewrite lookup_insert_ne by done. apply HP.
  - intros w k v HP _ k' val' deps'. simpl.
    destruct (decide (k = k')) as [<-|Hne].
    + by rewrite lookup_insert_eq.
    + rewrite lookup_insert_ne by done. apply HP.
  - done.
  - done.
Qed.

Lemma deps_unique_initial : deps_unique (props initial).
Proof. intros k val deps. simpl. by rewrite lookup_empty. Qed.

Lemma deps_unique_defineReactive key val w w' :
  defineReactive key val w = Some w' →
  deps_unique (props w) → deps_unique (props w').
Proof.
  unfold defineReactive. destruct (definable key w); [|done].
  intros [= <-] HP k val' deps'. simpl.
  destruct (decide (key = k)) as [<-|Hne].
  - rewrite lookup_insert_eq. intros [= <- <-]. apply NoDup_nil_2.
  - rewrite lookup_insert_ne by done. apply HP.
Qed.

Lemma deps_unique_defineComputed key fn cb w w' :
  defineComputed key fn cb w = Some w' →
  deps_unique (props w) → deps_unique (props w').
Proof.
  unfold defineComputed. destruct (definable key w); [|done].
  intros [= <-] HP k val' deps'. simpl.
  destruct (decide (key = k)) as [<-|Hne].
  - by rewrite lookup_insert_eq.
  - rewrite lookup_insert_ne by done. apply HP.
Qed.

(** A collection only ever grows at its end. *)
Lemma deps_only_appended fuel {A} (p : Prog A) w k :
  deps_of (props w) k `prefix_of` deps_of (props (snd (run fuel p w))) k.
Proof.
  revert k.
  apply (run_keeps
           (λ w', ∀ k, deps_of (props w) k `prefix_of` deps_of (props w') k));
    try done.
  - intros w' k val deps HP Hk k'. simpl.
    destruct (decide (k = k')) as [<-|Hne].
    + rewrite deps_of_insert_eq. etrans; [apply HP|].
      unfold deps_of. rewrite Hk. apply collect_prefix.
    + by rewrite deps_of_insert_ne.
  - intros w' k val deps v HP Hk k'. simpl.
    destruct (decide (k = k')) as [<-|Hne].
    + rewrite deps_of_insert_eq. etrans; [apply HP|].
      unfold deps_of. by rewrite Hk.
    + by rewrite deps_of_insert_ne.
  - intros w' k v HP Hdef k'. simpl.
    rewrite deps_of_insert_plain; [done|]. by apply is_data_deps_of.
Qed.

(** ** The record of getter events *)

Section TracedErase.
Context (call_t : ∀ A : Type,
           Prog A → World → list Event → Outcome A * World * list Event).
Context (call : ∀ A : Type, Prog A → World → Outcome A * World).
Context (call_erase : ∀ A p w tr, fst (call_t A p w tr) = call A p w).

Lemma computed_get_traced_erase s w tr :
  fst (computed_get_traced call_t s w tr) = computed_get call s w.
Proof using call_erase.
  unfold computed_get_traced, computed_get.
  rewrite <-(call_erase _ (computeFn s) (set_Dep (Some s) w) (tr ++ [Enter s])).
  by destruct (call_t Value (computeFn s) (set_Dep (Some s) w) (tr ++ [Enter s]))
    as [[[v| |] w2] tr2].
Qed.

Lemma onDependencyUpdated_traced_erase s w tr :
  fst (onDependencyUpdated_traced call_t s w tr) = onDependencyUpdated call s w.
Proof using call_erase.
  unfold onDependencyUpdated_traced, onDependencyUpdated.
  rewrite <-(call_erase _ (computeFn s) w tr).
  destruct (call_t Value (computeFn s) w tr) as [[[v| |] w1] tr1]; simpl;
    auto.
Qed.

Lemma forEach_traced_erase deps : ∀ w tr,
  fst (forEach_traced call_t deps w tr) = forEach call deps w.
Proof using call_erase.
  induction deps as [|d deps IH]; intros w tr; simpl; [done|].
  rewrite <-(onDependencyUpdated_traced_erase d w tr).
  destruct (onDependencyUpdated_traced call_t d w tr) as [[[[]| |] w1] tr1];
    simpl; auto.
Qed.

Lemma run_body_traced_erase {A} (p : Prog A) : ∀ w tr,
  fst (run_body_traced call_t p w tr) = run_body call p w.
Proof using call_erase.
  induction p as [a|e|k cont IH|k v cont IH|v cont IH|x cont IH];
    intros w tr; simpl; try done.
  - destruct (props w !! k) as [[v|val deps|s]|]; try apply IH.
    rewrite <-(computed_get_traced_erase s w tr).
    destruct (computed_get_traced call_t s w tr) as [[[v| |] w1] tr1];
      simpl; auto.
  - destruct (props w !! k) as [[v0|val deps|s]|]; try apply IH.
    unfold reactive_set_traced, reactive_set.
    rewrite <-(forEach_traced_erase deps (set_prop k (Reactive v deps) w) tr).
    destruct (forEach_traced call_t deps (set_prop k (Reactive v deps) w) tr)
      as [[[[]| |] w1] tr1]; simpl; auto.
Qed.
End TracedErase.

Lemma run_traced_S fuel A (p : Prog A) w tr :
  run_traced (S fuel) p w tr = run_body_traced (@run_traced fuel) p w tr.
Proof. done. Qed.

(** Forgetting the events gives [run] back. *)
Lemma run_traced_erase fuel : ∀ A (p : Prog A) w tr,
  fst (run_traced fuel p w tr) = run fuel p w.
Proof.
  induction fuel as [|fuel IH]; intros A p w tr; [done|].
  rewrite run_traced_S, run_S. by apply run_body_traced_erase.
Qed.

Section TracedInvariant.
Variable P : World → list Event → Prop.
Hypothesis P_enter : ∀ w tr s, P w tr → P (set_Dep (Some s) w) (tr ++ [Enter s]).
Hypothesis P_leave : ∀ w tr s, P w tr → P (set_Dep None w) (tr ++ [Leave s]).
Hypothesis P_collect : ∀ w tr k val deps,
  P w tr → props w !! k = Some (Reactive val deps) →
  P (set_prop k (Reactive val (collect (Dep w) deps)) w) tr.
Hypothesis P_assign : ∀ w tr k val deps v,
  P w tr → props w !! k = Some (Reactive val deps) →
  P (set_prop k (Reactive v deps) w) tr.
Hypothesis P_plain : ∀ w tr k v,
  P w tr → is_data k w = true → P (set_prop k (Plain v) w) tr.
Hypothesis P_print : ∀ w tr v, P w tr → P (print v w) tr.
Hypothesis P_bump : ∀ w tr x, P w tr → P (bump x w) tr.

Section Body.
Variable call :
  ∀ A : Type, Prog A → World → list Event → Outcome A * World * list Event.
Hypothesis call_keeps : ∀ A (p : Prog A) w tr,
  P w tr → P (snd (fst (call A p w tr))) (snd (call A p w tr)).

Lemma onDependencyUpdated_traced_keeps s w tr :
  P w tr →
  P (snd (fst (onDependencyUpdated_traced call s w tr)))
    (snd (onDependencyUpdated_traced call s w tr)).
Proof using call_keeps.
  intros HP. unfold onDependencyUpdated_traced.
  pose proof (call_keeps _ (computeFn s) w tr HP) as H1.
  destruct (call Value (computeFn s) w tr) as [[[value| |] w1] tr1];
    simpl in *; auto.
Qed.

Lemma forEach_traced_keeps deps : ∀ w tr,
  P w tr →
  P (snd (fst (forEach_traced call deps w tr)))
    (snd (forEach_traced call deps w tr)).
Proof using call_keeps.
  induction deps as [|d deps IH]; intros w tr HP; simpl; [done|].
  pose proof (onDependencyUpdated_traced_keeps d w tr HP) as H1.
  destruct (onDependencyUpdated_traced call d w tr) as [[[[]| |] w1] tr1];
    simpl in *; auto.
Qed.

Lemma run_body_traced_keeps {A} (p : Prog A) : ∀ w tr,
  P w tr →
  P (snd (fst (run_body_traced call p w tr)))
    (snd (run_body_traced call p w tr)).
Proof using All.
  induction p as [a|e|k cont IH|k v cont IH|v cont IH|x cont IH];
    intros w tr HP; simpl; try done.
  - destruct (props w !! k) as [[v|val deps|s]|] eqn:Hk.
    + by apply IH.
    + apply IH. by eapply P_collect.
    + unfold computed_get_traced.
      pose proof (call_keeps _ (computeFn s) _ _ (P_enter w tr s HP)) as H1.
      destruct (call Value (computeFn s) (set_Dep (Some s) w)
                  (tr ++ [Enter s])) as [[[value| |] w2] tr2];
        simpl in *; auto.
    + by apply IH.
  - destruct (props w !! k) as [[v0|val deps|s]|] eqn:Hk.
    + apply IH, P_plain; [done|]. unfold is_data. by rewrite Hk.
    + unfold reactive_set_traced.
      pose proof (forEach_traced_keeps deps _ _
                    (P_assign w tr k val deps v HP Hk)) as H1.
      destruct (forEach_traced call deps (set_prop k (Reactive v deps) w) tr)
        as [[[[]| |] w1] tr1]; simpl in *; auto.
    + by apply IH.
    + apply IH, P_plain; [done|]. unfold is_data. by rewrite Hk.
  - auto.
  - auto.
Qed.
End Body.

Lemma run_traced_keeps fuel : ∀ A (p : Prog A) w tr,
  P w tr →
  P (snd (fst (run_traced fuel p w tr))) (snd (run_traced fuel p w tr)).
Proof using All.
  induction fuel as [|fuel IH]; intros A p w tr HP; [done|].
  rewrite run_traced_S. by apply run_body_traced_keeps.
Qed.
End TracedInvariant.

Lemma last_snoc_event (tr : list Event) (e : Event) : last (tr ++ [e]) = Some e.
Proof. apply last_snoc. Qed.

(** [Dep] is what the getter events left in it. *)
Lemma marker_invariant d0 :
  (∀ w tr s, Dep w = marker_after d0 tr →
             Dep (set_Dep (Some s) w) = marker_after d0 (tr ++ [Enter s]))
  ∧ (∀ w tr s, Dep w = marker_after d0 tr →
               Dep (set_Dep None w) = marker_after d0 (tr ++ [Leave s])).
Proof.
  split; intros w tr s _; unfold marker_after; by rewrite last_snoc_event.
Qed.

Lemma run_traced_marker fuel {A} (p : Prog A) w :
  Dep (snd (fst (run_traced fuel p w [])))
  = marker_after (Dep w) (snd (run_traced fuel p w [])).
Proof.
  destruct (marker_invariant (Dep w)) as [Henter Hleave].
  by apply (run_traced_keeps (λ w' tr, Dep w' = marker_after (Dep w) tr)).
Qed.

Lemma forEach_traced_marker fuel deps w :
  Dep (snd (fst (forEach_traced (@run_traced fuel) deps w [])))
  = marker_after (Dep w) (snd (forEach_traced (@run_traced fuel) deps w [])).
Proof.
  destruct (marker_invariant (Dep w)) as [Henter Hleave].
  apply (forEach_traced_keeps (λ w' tr, Dep w' = marker_after (Dep w) tr));
    [|done].
  intros A p w' tr.
  by apply (run_traced_keeps (λ w' tr, Dep w' = marker_after (Dep w) tr)).
Qed.

Lemma elem_of_collect d dep deps :
  d ∈ collect dep deps → d ∈ deps ∨ dep = Some d.
Proof.
  destruct dep as [d'|]; [|by left]. unfold collect.
  destruct (existsb _ deps); [by left|].
  intros [?|E%list_elem_of_singleton]%elem_of_app; [by left|].
  right. by rewrite E.
Qed.

(** With no getter event, the marker stays empty and no collection
    changes. *)
Lemma run_traced_quiet fuel {A} (p : Prog A) w :
  Dep w = None →
  snd (run_traced fuel p w []) = [] →
  Dep (snd (fst (run_traced fuel p w []))) = None
  ∧ ∀ k, deps_of (props (snd (fst (run_traced fuel p w [])))) k
         = deps_of (props w) k.
Proof.
  intros HDep.
  apply (run_traced_keeps
           (λ w' tr, tr = [] →
                     Dep w' = None
                     ∧ ∀ k, deps_of (props w') k = deps_of (props w) k));
    [..|done]; clear.
  - intros w' tr s _ Hnil. by apply app_nil in Hnil as [_ ?].
  - intros w' tr s _ Hnil. by apply app_nil in Hnil as [_ ?].
  - intros w' tr k val deps HP Hk Hnil. destruct (HP Hnil) as [HDep Hsame].
    simpl. rewrite HDep. simpl. by rewrite insert_id.
  - intros w' tr k val deps v HP Hk Hnil. destruct (HP Hnil) as [HDep Hsame].
    split; [done|]. intros k'. rewrite <-Hsame. simpl.
    destruct (decide (k = k')) as [<-|Hne].
    + rewrite deps_of_insert_eq. unfold deps_of. by rewrite Hk.
    + by rewrite deps_of_insert_ne.
  - intros w' tr k v HP Hdata Hnil. destruct (HP Hnil) as [HDep Hsame].
    split; [done|]. intros k'. rewrite <-Hsame. simpl.
    apply deps_of_insert_plain. by apply is_data_deps_of.
  - intros w' tr v HP Hnil. by apply HP.
  - intros w' tr x HP Hnil. by apply HP.
Qed.

(** Whatever is added to a collection is the subscriber of a getter that
    was entered. *)
Lemma run_traced_registered fuel {A} (p : Prog A) w k d :
  Dep w = None →
  d ∈ deps_of (props (snd (fst (run_traced fuel p w [])))) k →
  d ∈ deps_of (props w) k ∨ Enter d ∈ snd (run_traced fuel p w []).
Proof.
  intros HDep. revert k d.
  apply (run_traced_keeps
           (λ w' tr, (∀ s, Dep w' = Some s → Enter s ∈ tr)
                     ∧ ∀ k d, d ∈ deps_of (props w') k →
                              d ∈ deps_of (props w) k ∨ Enter d ∈ tr)).
  - intros w' tr s [HD Hin]. split.
    + simpl. intros s' [= <-]. apply elem_of_app. right.
      by apply list_elem_of_singleton.
    + intros k d Hd. destruct (Hin k d Hd) as [?|?]; [by left|].
      right. apply elem_of_app. by left.
  - intros w' tr s [HD Hin]. split; [done|].
    intros k d Hd. destruct (Hin k d Hd) as [?|?]; [by left|].
    right. apply elem_of_app. by left.
  - intros w' tr k val deps [HD Hin] Hk. split; [done|].
    intros k' d. simpl. destruct (decide (k = k')) as [<-|Hne].
    + rewrite deps_of_insert_eq.
      intros [Hd|Hd]%elem_of_collect.
      * apply Hin. unfold deps_of. by rewrite Hk.
      * right. by apply HD.
    + rewrite deps_of_insert_ne by done. apply Hin.
  - intros w' tr k val deps v [HD Hin] Hk. split; [done|].
    intros k' d. simpl. destruct (decide (k = k')) as [<-|Hne].
    + rewrite deps_of_insert_eq. intros Hd. apply Hin.
      unfold deps_of. by rewrite Hk.
    + rewrite deps_of_insert_ne by done. apply Hin.
  - intros w' tr k v [HD Hin] Hdata. split; [done|].
    intros k' d. simpl.
    rewrite deps_of_insert_plain by (by apply is_data_deps_of). apply Hin.
  - intros w' tr v [HD Hin]. done.
  - intros w' tr x [HD Hin]. done.
  - split; [by rewrite HDep | by left].
Qed.

(** What has been printed stays printed. *)
Lemma console_only_appended fuel {A} (p : Prog A) w :
  console w `prefix_of` console (snd (run fuel p w)).
Proof.
  apply (run_keeps (λ w', console w `prefix_of` console w')); try done.
  intros w' v HP. simpl. by apply prefix_app_r.
Qed.

(** ** Marker isolation *)

(** C1, for a derivation that returns: after a read of a computed cell
    whose derivation returns normally, the dependency marker is empty, and a
    reactive-cell read that follows changes nothing at all (no subscriber
    is added). *)
Theorem marker_cleared_on_return fuel k s w v w' :
  props w !! k = Some (Computed s) →
  run fuel (GetProp k Ret) w = (Done v, w') →
  Dep w' = None
  ∧ ∀ fuel' r val deps,
      props w' !! r = Some (Reactive val deps) →
      run (S fuel') (GetProp r Ret) w' = (Done val, w').
Proof.
  intros Hk Hrun. destruct fuel as [|fuel]; [done|].
  rewrite run_S in Hrun. simpl in Hrun. rewrite Hk in Hrun.
  unfold computed_get in Hrun.
  destruct (run fuel (computeFn s) (set_Dep (Some s) w)) as [[value| |] w2];
    simpl in Hrun; try done.
  injection Hrun as -> <-. split; [done|].
  intros fuel' r val deps Hr. rewrite run_S. simpl in *. rewrite Hr.
  unfold reactive_get. simpl.
  by rewrite (set_prop_id r (Reactive val deps) (set_Dep None w2)).
Qed.

Lemma marker_cleared_on_return_witness :
  let w := snd (run 2 (SetProp "todos" (Demo.todos true false true) (Ret tt))
                  Example.unset) in
  ∃ w', run 2 (GetProp "doneCount" Ret) w = (Done (VNum 2), w')
    ∧ Dep w' = None
    ∧ run 1 (GetProp "other" Ret) w' = (Done (VNum 5), w').
Proof.
  intros w.
  pose (w' := snd (run 2 (GetProp "doneCount" Ret) w)).
  assert (run 2 (GetProp "doneCount" Ret) w = (Done (VNum 2), w')) as Hrun
    by reflexivity.
  exists w'. split; [exact Hrun|].
  destruct (marker_cleared_on_return 2 "doneCount"
              (mkSub "doneCount" Demo.countDone Demo.announce)
              w (VNum 2) w' eq_refl Hrun) as [HDep Hread].
  split; [exact HDep|].
  exact (Hread 0 "other" (VNum 5) [] eq_refl).
Defined.

(** C1, for a derivation that throws: the demo's derivation throws while [todos] is
    still [null]; the marker then stays set to the cell's subscriber, and a
    later top-level read of [other] registers it there. *)
Lemma marker_left_active_after_throw :
  let r1 := run 2 (GetProp "doneCount" Ret) Example.unset in
  let r2 := run 2 (GetProp "other" Ret) (snd r1) in
  Dep Example.unset = None
  ∧ fst r1 = Thrown Demo.TypeError
  ∧ sub_id <$> Dep (snd r1) = Some "doneCount"
  ∧ fst r2 = Done (VNum 5)
  ∧ sub_id <$> deps_of (props (snd r1)) "other" = []
  ∧ sub_id <$> deps_of (props (snd r2)) "other" = ["doneCount"].
Proof. vm_compute. by split_and!. Qed.

(** ** A computed read inside a derivation *)

(** C2: when the derivation of [outer] reads the computed cell [inner], the
    nested read sets the marker to [inner]'s subscriber and empties it on
    return; the marker of [outer] is not put back.  What the rest of the
    outer derivation reads is therefore registered nowhere: after the whole
    read, the collections are those the nested read alone produced, and a
    reactive cell read only after the nested read does not hold [outer]'s
    subscriber. *)
Theorem nested_read_drops_outer_marker fuel ko so ki si cont w x v :
  props w !! ko = Some (Computed so) →
  computeFn so = GetProp ki cont →
  props w !! ki = Some (Computed si) →
  sub_id si ≠ sub_id so →
  flat_value (props w) (computeFn si) = Some x →
  flat_value (props w) (cont x) = Some v →
  ∃ w',
    run (S (S (S fuel))) (GetProp ko Ret) w = (Done v, w')
    ∧ (∀ r, props w' !! r
            = touch (Some si)
                (bool_decide (r ∈ reads (props w) (computeFn si)))
                (props w !! r))
    ∧ (∀ r, r ∈ reads (props w) (cont x) →
            sub_id so ∉ sub_id <$> deps_of (props w) r →
            sub_id so ∉ sub_id <$> deps_of (props w') r).
Proof.
  intros Hko Hso Hki Hne Hinner Hrest.
  rewrite run_S, (run_body_get_computed _ ko so _ w Hko).
  unfold computed_get at 1. rewrite (run_S (S fuel)), Hso.
  rewrite (run_body_get_computed _ ki si _ (set_Dep (Some so) w) Hki).
  destruct (computed_get_flat (@run (S fuel)) (@run fuel) (run_S fuel)
              si (set_Dep (Some so) w) x Hinner)
    as (w2 & -> & HDep2 & Hprops2 & _). simpl in Hprops2.
  assert (same_view (props w2) (props w)) as Hview
    by exact (touch_same_view _ _ _ (λ r, bool_decide (r ∈ _)) Hprops2).
  rewrite <-(flat_value_ext _ _ _ Hview) in Hrest.
  destruct (run_flat (@run (S fuel)) (cont x) w2 v Hrest)
    as (w3 & -> & HDep3 & Hprops3 & _).
  rewrite HDep2 in Hprops3.
  apply (touch_None_eq _ _ (λ r, bool_decide (r ∈ _))) in Hprops3.
  exists (set_Dep None w3). simpl. rewrite Hprops3.
  split_and!; [done | done |].
  intros r _ Hout. unfold deps_of in *. rewrite Hprops2.
  destruct (props w !! r) as [[?|val deps|?]|]; unfold touch; try done.
  case_bool_decide; [|done].
  destruct (decide (sub_id si ∈ sub_id <$> deps)) as [Hin|Hnin].
  - by rewrite collect_present.
  - rewrite collect_absent, fmap_app by done.
    intros [?|Hin%list_elem_of_singleton]%elem_of_app; [done|].
    simpl in Hin. congruence.
Qed.

Lemma nested_read_drops_outer_marker_witness :
  ∃ w',
    run 3 (GetProp "outer" Ret) Example.nested = (Done (VNum 2), w')
    ∧ (sub_id <$> deps_of (props w') "a") = ["inner"]
    ∧ "outer" ∉ sub_id <$> deps_of (props w') "b".
Proof.
  destruct (nested_read_drops_outer_marker 0
              "outer"
              (mkSub "outer" (GetProp "inner" (fun _ => GetProp "b" Ret)) noop)
              "inner" (mkSub "inner" (GetProp "a" Ret) noop)
              (fun _ => GetProp "b" Ret)
              Example.nested (VNum 1) (VNum 2))
    as (w' & Hrun & Hprops & Hout).
  - reflexivity.
  - reflexivity.
  - reflexivity.
  - simpl. discriminate.
  - reflexivity.
  - reflexivity.
  - exists w'. split; [exact Hrun|]. split.
    + unfold deps_of. rewrite Hprops. reflexivity.
    + apply (Hout "b").
      * vm_compute. apply list_elem_of_here.
      * vm_compute. apply not_elem_of_nil.
Defined.

(** ** Dependency capture *)

(** C3: one read of a computed cell whose derivation reads reactive cells
    leaves the cell's subscriber exactly once in the collection of every
    reactive cell the derivation reads, however often it reads it; the
    collection is the old one, with the subscriber appended only when it was
    not there already. *)
Theorem dependency_captured_once fuel k s w r val deps :
  props w !! k = Some (Computed s) →
  is_Some (flat_value (props w) (computeFn s)) →
  r ∈ reads (props w) (computeFn s) →
  props w !! r = Some (Reactive val deps) →
  NoDup (sub_id <$> deps) →
  ∃ v w' deps',
    run (S (S fuel)) (GetProp k Ret) w = (Done v, w')
    ∧ props w' !! r = Some (Reactive val deps')
    ∧ occurrences s deps' = 1
    ∧ deps' = (if existsb (fun dep => same s dep) deps
               then deps else deps ++ [s]).
Proof.
  intros Hk [a Hflat] Hr Hlook Hnd.
  destruct (computed_read_flat fuel k s w a Hk Hflat)
    as (w' & Hrun & _ & Hprops & _).
  exists a, w', (collect (Some s) deps). split_and!; [done | | | done].
  - rewrite Hprops, Hlook. simpl. by rewrite bool_decide_eq_true_2.
  - by apply occurrences_collect.
Qed.

Lemma dependency_captured_once_witness :
  ∃ v w' deps',
    run 2 (GetProp "first" Ret) Example.pair = (Done v, w')
    ∧ props w' !! "r" = Some (Reactive (VNum 1) deps')
    ∧ occurrences (mkSub "first" (Example.counted "n1" "r")
                         (Example.say "first")) deps' = 1
    ∧ deps' = [mkSub "first" (Example.counted "n1" "r") (Example.say "first")].
Proof.
  apply (dependency_captured_once 0 "first"
           (mkSub "first" (Example.counted "n1" "r") (Example.say "first"))
           Example.pair "r" (VNum 1) []).
  - reflexivity.
  - exists (VNum 1). reflexivity.
  - vm_compute. apply list_elem_of_here.
  - reflexivity.
  - apply NoDup_nil_2.
Defined.

(** ** Recomputation on write *)

(** C4: a write to a reactive cell stores the new value first and then
    notifies.  Let the subscriber [s] of a computed cell be in the
    collection, after subscribers [before] whose notifications return and
    change no value.  Then the write amounts to: calling [s]'s change
    callback on the value [a] that [s]'s derivation has for the new value
    of the cell, in a world where the cell holds the new value; then
    notifying the subscribers after [s]; then going on. *)
Theorem recompute_on_write fuel {A} r val before s after newValue a
    (cont : Prog A) w wb :
  props w !! r = Some (Reactive val (before ++ s :: after)) →
  forEach (@run (S fuel)) before
    (set_prop r (Reactive newValue (before ++ s :: after)) w)
  = (Done tt, wb) →
  same_view (props wb)
    (<[r := Reactive newValue (before ++ s :: after)]> (props w)) →
  flat_value (<[r := Reactive newValue (before ++ s :: after)]> (props w))
             (computeFn s) = Some a →
  ∃ w1,
    peek (props w1) r = Some newValue
    ∧ same_view (props w1)
        (<[r := Reactive newValue (before ++ s :: after)]> (props w))
    ∧ run (S (S fuel)) (SetProp r newValue cont) w
      = and_then (run (S fuel) (updateCallback s a) w1) (fun _ w2 =>
        and_then (forEach (@run (S fuel)) after w2) (fun _ w3 =>
        run_body (@run (S fuel)) cont w3)).
Proof.
  intros Hr Hbef Hview Hs.
  set (deps := before ++ s :: after) in *.
  rewrite <-(flat_value_ext _ _ _ Hview) in Hs.
  destruct (run_flat (@run fuel) (computeFn s) wb a Hs)
    as (w1 & Hderiv & _ & Hprops1 & _).
  apply (touch_same_view _ _ _ (λ k, bool_decide (k ∈ _))) in Hprops1.
  assert (same_view (props w1) (<[r := Reactive newValue deps]> (props w)))
    as Hview1 by (intros k; by rewrite Hprops1, Hview).
  exists w1. split_and!; [|done|].
  - rewrite Hview1. unfold peek. by rewrite lookup_insert_eq.
  - rewrite run_S, (run_body_set_reactive _ r val deps newValue cont w Hr).
    unfold reactive_set. unfold deps at 1.
    rewrite forEach_app. fold deps. rewrite Hbef. simpl.
    unfold onDependencyUpdated. rewrite run_S, Hderiv. simpl.
    by destruct (run (S fuel) (updateCallback s a) w1) as [[[]| |] w2].
Qed.

Lemma recompute_on_write_witness :
  let first := mkSub "first" (Example.counted "n1" "r") (Example.say "first") in
  let second :=
    mkSub "second" (Example.counted "n2" "r") (Example.say "second") in
  let w := snd (run 2 (GetProp "first" (fun _ => GetProp "second" Ret))
                  Example.pair) in
  props w !! "r" = Some (Reactive (VNum 1) [first; second])
  ∧ ∃ w1,
      peek (props w1) "r" = Some (VNum 10)
      ∧ run 2 (SetProp "r" (VNum 10) (Ret tt)) w
        = and_then (run 1 (updateCallback second (VNum 10)) w1) (fun _ w2 =>
          and_then (forEach (@run 1) [] w2) (fun _ w3 =>
          run_body (@run 1) (Ret tt) w3)).
Proof.
  intros first second w. split; [reflexivity|].
  destruct (recompute_on_write 0 "r" (VNum 1) [first] second [] (VNum 10)
              (VNum 10) (Ret tt) w
              (snd (forEach (@run 1) [first]
                      (set_prop "r" (Reactive (VNum 10) [first; second]) w))))
    as (w1 & Hpeek & _ & Hrun).
  - reflexivity.
  - reflexivity.
  - intros k. reflexivity.
  - reflexivity.
  - exists w1. split; [exact Hpeek | exact Hrun].
Defined.

(** ** Order of notification *)

(** C5, for cells registered in the order of their first reads: (1) a
    write stores the value and then notifies the subscribers of the
    collection front to back, each one after those before it have
    completed, and all of them before the writing body goes on, whatever
    the callbacks are; (2) with flat subscribers the console shows their
    notices in that order; (3) a collection is in order of first
    registration, as whatever runs only ever appends to it, and to the
    console; (4) with two computed cells whose derivations read the
    reactive cell when read, read in the order first, second, first
    again, the collection is first, second and a write notifies the first
    and then the second, whatever their callbacks are. *)
Theorem write_notifies_in_registration_order fuel :
  (∀ A w r val before s after v (cont : Prog A),
     props w !! r = Some (Reactive val (before ++ s :: after)) →
     run (S fuel) (SetProp r v cont) w
     = and_then (forEach (@run fuel) before
                   (set_prop r (Reactive v (before ++ s :: after)) w))
         (fun _ w1 =>
       and_then (onDependencyUpdated (@run fuel) s w1) (fun _ w2 =>
       and_then (forEach (@run fuel) after w2) (fun _ w3 =>
       run_body (@run fuel) cont w3))))
  ∧ (∀ w r val deps v,
       props w !! r = Some (Reactive val deps) →
       Dep w = None →
       Forall (flat_sub (<[r := Reactive v deps]> (props w))) deps →
       ∃ w',
         run (S (S fuel)) (SetProp r v (Ret tt)) w = (Done tt, w')
         ∧ console w'
           = console w
             ++ concat (notice (<[r := Reactive v deps]> (props w)) <$> deps))
  ∧ (∀ A (p : Prog A) w k,
       deps_of (props w) k `prefix_of` deps_of (props (snd (run fuel p w))) k
       ∧ console w `prefix_of` console (snd (run fuel p w)))
  ∧ (∀ A w r v0 k1 s1 k2 s2 v (cont : Prog A),
       Dep w = None →
       props w !! r = Some (Reactive v0 []) →
       props w !! k1 = Some (Computed s1) →
       props w !! k2 = Some (Computed s2) →
       sub_id s1 ≠ sub_id s2 →
       is_Some (flat_value (props w) (computeFn s1)) →
       is_Some (flat_value (props w) (computeFn s2)) →
       r ∈ reads (props w) (computeFn s1) →
       r ∈ reads (props w) (computeFn s2) →
       ∃ w3,
         deps_of (props w3) r = [s1; s2]
         ∧ Dep w3 = None
         ∧ run (S (S fuel))
             (GetProp k1 (fun _ =>
              GetProp k2 (fun _ =>
              GetProp k1 (fun _ =>
              SetProp r v cont)))) w
           = and_then (onDependencyUpdated (@run (S fuel)) s1
                         (set_prop r (Reactive v [s1; s2]) w3))
               (fun _ w4 =>
             and_then (onDependencyUpdated (@run (S fuel)) s2 w4) (fun _ w5 =>
             run_body (@run (S fuel)) cont w5))).
Proof.
  split_and!.
  - intros A w r val before s after v cont Hr.
    rewrite run_S,
      (run_body_set_reactive _ r val (before ++ s :: after) v cont w Hr).
    unfold reactive_set. rewrite forEach_app.
    destruct (forEach (@run fuel) before
                (set_prop r (Reactive v (before ++ s :: after)) w))
      as [[[]| |] w1]; simpl; try done.
    by destruct (onDependencyUpdated (@run fuel) s w1) as [[[]| |] w2].
  - intros w r val deps v Hr HDep Hall. rewrite run_S.
    destruct (write_flat fuel r val deps v (Ret tt) w Hr HDep Hall)
      as (w1 & -> & _ & _ & Hcon).
    by exists w1.
  - intros A p w k. split.
    + apply deps_only_appended.
    + apply console_only_appended.
  - intros A w r v0 k1 s1 k2 s2 v cont HDep Hr Hk1 Hk2 Hne [a1 Hf1] [a2 Hf2]
      Hr1 Hr2.
    rewrite run_S.
    (* first read of k1 *)
    read_step k1 s1 w a1 Hk1 Hf1 as (w1 & -> & HDep1 & Hp1 & Hc1).
    pose proof (touch_same_view _ _ _ (λ r, bool_decide (r ∈ _)) Hp1) as Hv1.
    assert (props w1 !! r = Some (Reactive v0 [s1])) as Hr_1.
    { rewrite Hp1, Hr. simpl. by rewrite bool_decide_eq_true_2. }
    assert (props w1 !! k2 = Some (Computed s2)) as Hk2_1
      by (by rewrite Hp1, Hk2).
    assert (props w1 !! k1 = Some (Computed s1)) as Hk1_1
      by (by rewrite Hp1, Hk1).
    (* read of k2 *)
    rewrite <-(flat_value_ext _ _ _ Hv1) in Hf2.
    read_step k2 s2 w1 a2 Hk2_1 Hf2 as (w2 & -> & HDep2 & Hp2 & Hc2).
    pose proof (touch_same_view _ _ _ (λ r, bool_decide (r ∈ _)) Hp2) as Hv2.
    rewrite (reads_ext _ _ _ Hv1) in Hp2. rewrite (logs_ext _ _ _ Hv1) in Hc2.
    assert (props w2 !! r = Some (Reactive v0 [s1; s2])) as Hr_2.
    { rewrite Hp2, Hr_1. unfold touch.
      rewrite bool_decide_eq_true_2 by done.
      rewrite collect_absent; [done|].
      rewrite list_fmap_singleton. by intros ?%list_elem_of_singleton. }
    assert (props w2 !! k1 = Some (Computed s1)) as Hk1_2
      by (by rewrite Hp2, Hk1_1).
    (* second read of k1 *)
    pose proof (same_view_trans _ _ _ Hv2 Hv1) as Hv12.
    rewrite <-(flat_value_ext _ _ _ Hv12) in Hf1.
    read_step k1 s1 w2 a1 Hk1_2 Hf1 as (w3 & -> & HDep3 & Hp3 & Hc3).
    pose proof (touch_same_view _ _ _ (λ r, bool_decide (r ∈ _)) Hp3) as Hv3.
    rewrite (reads_ext _ _ _ Hv12) in Hp3.
    rewrite (logs_ext _ _ _ Hv12) in Hc3.
    assert (props w3 !! r = Some (Reactive v0 [s1; s2])) as Hr_3.
    { rewrite Hp3, Hr_2. unfold touch.
      rewrite bool_decide_eq_true_2 by done.
      rewrite collect_present; [done|].
      rewrite fmap_cons. apply list_elem_of_here. }
    exists w3. split_and!.
    + unfold deps_of. by rewrite Hr_3.
    + done.
    + rewrite (run_body_set_reactive _ r v0 [s1; s2] v cont w3 Hr_3).
      unfold reactive_set. simpl.
      destruct (onDependencyUpdated (@run (S fuel)) s1
                  (set_prop r (Reactive v [s1; s2]) w3)) as [[[]| |] w4];
        simpl; try done.
      by destruct (onDependencyUpdated (@run (S fuel)) s2 w4)
        as [[[]| |] w5].
Qed.

Lemma write_notifies_in_registration_order_witness :
  (∃ w3,
     deps_of (props w3) "r"
     = [mkSub "first" (Example.counted "n1" "r") (Example.say "first");
        mkSub "second" (Example.counted "n2" "r") (Example.say "second")]
     ∧ Dep w3 = None
     ∧ run 2
         (GetProp "first" (fun _ =>
          GetProp "second" (fun _ =>
          GetProp "first" (fun _ =>
          SetProp "r" (VNum 10) (Ret tt))))) Example.pair
       = and_then
           (onDependencyUpdated (@run 1)
              (mkSub "first" (Example.counted "n1" "r") (Example.say "first"))
              (set_prop "r"
                 (Reactive (VNum 10)
                    [mkSub "first" (Example.counted "n1" "r")
                           (Example.say "first");
                     mkSub "second" (Example.counted "n2" "r")
                           (Example.say "second")]) w3))
           (fun _ w4 =>
         and_then
           (onDependencyUpdated (@run 1)
              (mkSub "second" (Example.counted "n2" "r")
                     (Example.say "second")) w4)
           (fun _ w5 => run_body (@run 1) (Ret tt) w5)))
  ∧ console
      (snd (run 2
              (GetProp "first" (fun _ =>
               GetProp "second" (fun _ =>
               GetProp "first" (fun _ =>
               SetProp "r" (VNum 10) (Ret tt))))) Example.pair))
    = [VArr [VStr "first"; VNum 10]; VArr [VStr "second"; VNum 10]].
Proof.
  split; [|vm_compute; reflexivity].
  apply (proj2 (proj2 (proj2 (write_notifies_in_registration_order 0)))
           unit Example.pair "r" (VNum 1)
           "first"
           (mkSub "first" (Example.counted "n1" "r") (Example.say "first"))
           "second"
           (mkSub "second" (Example.counted "n2" "r") (Example.say "second"))
           (VNum 10) (Ret tt)).
  - reflexivity.
  - reflexivity.
  - reflexivity.
  - reflexivity.
  - simpl. discriminate.
  - exists (VNum 1). reflexivity.
  - exists (VNum 1). reflexivity.
  - vm_compute. apply list_elem_of_here.
  - vm_compute. apply list_elem_of_here.
Defined.

(** C5, for a cell that starts to depend on the reactive cell later on:
    [early] is read before [steady], but its derivation reads [r] only
    once [flag] is set.  When it is read again it is registered on [r]
    behind [steady], and a write to [r] notifies [steady] first. *)
Lemma first_read_is_not_first_registration :
  let res := run 2 Late.main Late.world in
  fst res = Done tt
  ∧ sub_id <$> deps_of (props (snd res)) "r" = ["steady"; "early"]
  ∧ console (snd res)
    = [VArr [VStr "early"; VNum 1];
       VArr [VStr "steady"; VNum 10];
       VArr [VStr "early"; VNum 10]].
Proof. vm_compute. by split_and!. Qed.

(** ** No caching *)

(** C6: a computed cell keeps no cached value.  Two reads in a row, with no
    write in between, both run the derivation: a counter that the
    derivation bumps once per call has gone up by two. *)
Theorem no_memoization fuel k s w x :
  props w !! k = Some (Computed s) →
  is_Some (flat_value (props w) (computeFn s)) →
  incrs (props w) x (computeFn s) = 1%Z →
  ∃ v w',
    run (S (S fuel)) (GetProp k (fun _ => GetProp k Ret)) w = (Done v, w')
    ∧ counter x w' = (counter x w + 2)%Z.
Proof.
  intros Hk [a Hflat] Hincr.
  destruct (computed_read_flat fuel k s w a Hk Hflat)
    as (w1 & Hrun1 & _ & Hprops1 & _ & Hctr1).
  assert (same_view (props w1) (props w)) as Hview
    by exact (touch_same_view _ _ _ (λ r, bool_decide (r ∈ _)) Hprops1).
  assert (props w1 !! k = Some (Computed s)) as Hk1
    by (by rewrite Hprops1, Hk).
  rewrite <-(flat_value_ext _ _ _ Hview) in Hflat.
  destruct (computed_read_flat fuel k s w1 a Hk1 Hflat)
    as (w2 & Hrun2 & _ & _ & _ & Hctr2).
  exists a, w2.
  rewrite run_S in Hrun1, Hrun2 |- *.
  rewrite (run_body_get_computed _ k s _ w Hk) in Hrun1.
  rewrite (run_body_get_computed _ k s _ w Hk).
  destruct (computed_get (@run (S fuel)) s w) as [[v1| |] w1'];
    try done.
  simpl in Hrun1. injection Hrun1 as -> ->. split; [done|].
  rewrite Hctr2, Hctr1, (incrs_ext _ _ _ _ Hview), Hincr. lia.
Qed.

Lemma no_memoization_witness :
  ∃ v w',
    run 2 (GetProp "first" (fun _ => GetProp "first" Ret)) Example.pair
    = (Done v, w')
    ∧ counter "n1" w' = (counter "n1" Example.pair + 2)%Z.
Proof.
  apply (no_memoization 0 "first"
           (mkSub "first" (Example.counted "n1" "r") (Example.say "first"))
           Example.pair "n1").
  - reflexivity.
  - exists (VNum 1). reflexivity.
  - reflexivity.
Defined.

(** ** Assigning to a computed property *)

(** C7: an assignment [owner.key = v] to a computed property does nothing:
    the program goes on exactly as if the assignment were not there (same
    outcome, same world), so no derivation runs, no callback fires and a
    read that follows returns what it would have returned anyway. *)
Theorem computed_assignment_ignored fuel {A} k s v (cont : Prog A) w :
  props w !! k = Some (Computed s) →
  run fuel (SetProp k v cont) w = run fuel cont w.
Proof.
  intros Hk. destruct fuel as [|fuel]; [done|].
  rewrite !run_S. simpl. by rewrite Hk.
Qed.

Lemma computed_assignment_ignored_witness :
  props Example.pair !! "first"
    = Some (Computed (mkSub "first" (Example.counted "n1" "r")
                           (Example.say "first")))
  ∧ run 2 (SetProp "first" (VNum 7) (GetProp "first" Ret)) Example.pair
    = run 2 (GetProp "first" Ret) Example.pair.
Proof.
  split; [reflexivity|].
  apply (computed_assignment_ignored 2 "first"
           (mkSub "first" (Example.counted "n1" "r") (Example.say "first"))).
  reflexivity.
Defined.

(** ** Reading a reactive property *)

(** C8: a read of a reactive cell always returns its current value, and the
    value of a cell defined without an initial value is [null]. *)
Theorem reactive_read_never_fails fuel k w :
  (∀ val deps,
     props w !! k = Some (Reactive val deps) →
     ∃ w', run (S fuel) (GetProp k Ret) w = (Done val, w'))
  ∧ (∀ w0,
       defineReactive k VUndef w0 = Some w →
       ∃ w', run (S fuel) (GetProp k Ret) w = (Done VNull, w')).
Proof.
  assert (∀ val deps,
            props w !! k = Some (Reactive val deps) →
            ∃ w', run (S fuel) (GetProp k Ret) w = (Done val, w')) as Hread.
  { intros val deps Hk. rewrite run_S. simpl. rewrite Hk. simpl. eauto. }
  split; [exact Hread|].
  intros w0 Hdef. unfold defineReactive in Hdef.
  destruct (definable k w0); [|done]. injection Hdef as <-.
  apply (Hread VNull []). simpl. by rewrite lookup_insert_eq.
Qed.

Lemma reactive_read_never_fails_witness :
  let w := default initial (defineReactive "todos" VUndef initial) in
  defineReactive "todos" VUndef initial = Some w
  ∧ ∃ w', run 1 (GetProp "todos" Ret) w = (Done VNull, w').
Proof.
  intros w. split; [reflexivity|].
  exact (proj2 (reactive_read_never_fails 0 "todos" w) initial eq_refl).
Defined.

(** ** What a write registers *)

(** C9, for a write made with the marker empty.  (1) Once the subscribers
    before [s] have been notified, and unless the last getter event so far
    is a getter that was entered and not left (its derivation threw), the
    recomputation of [s] runs with the marker empty: a derivation that
    reads only reactive cells changes no collection.  (2) A write, or any other code, during which no computed
    getter is entered leaves the marker empty and every collection as it
    was.  (3) Whatever code runs, every entry it adds to a collection is
    the subscriber of a computed cell whose getter was entered during the
    run. *)
Theorem write_registers_nothing fuel :
  (∀ w r val before s after v wb tr a,
     props w !! r = Some (Reactive val (before ++ s :: after)) →
     Dep w = None →
     forEach_traced (@run_traced (S fuel)) before
       (set_prop r (Reactive v (before ++ s :: after)) w) []
     = (Done tt, wb, tr) →
     (∀ s', last tr ≠ Some (Enter s')) →
     flat_value (props wb) (computeFn s) = Some a →
     forEach (@run (S fuel)) before
       (set_prop r (Reactive v (before ++ s :: after)) w) = (Done tt, wb)
     ∧ Dep wb = None
     ∧ ∃ w1, run (S fuel) (computeFn s) wb = (Done a, w1)
             ∧ Dep w1 = None
             ∧ props w1 = props wb)
  ∧ (∀ A (p : Prog A) w,
       Dep w = None →
       getter_events fuel p w = [] →
       Dep (snd (run fuel p w)) = None
       ∧ ∀ k, deps_of (props (snd (run fuel p w))) k = deps_of (props w) k)
  ∧ (∀ A (p : Prog A) w k d,
       Dep w = None →
       d ∈ deps_of (props (snd (run fuel p w))) k →
       d ∈ deps_of (props w) k ∨ Enter d ∈ getter_events fuel p w).
Proof.
  split_and!.
  - intros w r val before s after v wb tr a Hr HDep Hbef Hlast Hflat.
    set (w0 := set_prop r (Reactive v (before ++ s :: after)) w) in *.
    pose proof (forEach_traced_erase (@run_traced (S fuel)) (@run (S fuel))
                  (run_traced_erase (S fuel)) before w0 []) as Herase.
    pose proof (forEach_traced_marker (S fuel) before w0) as Hmark.
    rewrite Hbef in Herase, Hmark. simpl in Herase, Hmark.
    assert (Dep wb = None) as HDepb.
    { rewrite Hmark. unfold marker_after.
      destruct (last tr) as [[s'|s']|] eqn:Hl; [|done|done].
      by destruct (Hlast s'). }
    split_and!; [done | done |].
    destruct (run_flat (@run fuel) (computeFn s) wb a Hflat)
      as (w1 & Hrun & HDep1 & Hprops1 & _).
    rewrite HDepb in Hprops1.
    apply (touch_None_eq _ _ (λ k, bool_decide (k ∈ _))) in Hprops1.
    exists w1. rewrite run_S. split_and!; [done | congruence | done].
  - intros A p w HDep Hquiet. unfold getter_events in Hquiet.
    rewrite <-(run_traced_erase fuel A p w []).
    by apply run_traced_quiet.
  - intros A p w k d HDep. unfold getter_events.
    rewrite <-(run_traced_erase fuel A p w []).
    by apply run_traced_registered.
Qed.

Lemma write_registers_nothing_witness :
  let w := snd (run 2 (GetProp "first" (fun _ => GetProp "second" Ret))
                  Example.pair) in
  sub_id <$> deps_of (props w) "r" = ["first"; "second"]
  ∧ Dep (snd (run 2 (SetProp "r" (VNum 10) (Ret tt)) w)) = None
  ∧ ∀ k, deps_of (props (snd (run 2 (SetProp "r" (VNum 10) (Ret tt)) w))) k
         = deps_of (props w) k.
Proof.
  intros w. split; [reflexivity|].
  apply (proj1 (proj2 (write_registers_nothing 2)) unit
           (SetProp "r" (VNum 10) (Ret tt)) w).
  - reflexivity.
  - vm_compute. reflexivity.
Defined.

(** C9, for a change callback that reads a computed cell: the callback of
    [watcher] reads the computed cell [total].  A write to [a], made with
    the marker empty, notifies [watcher], whose callback thereby registers
    [total] on [b]: the write has changed a collection. *)
Lemma write_registers_through_callback :
  let w := snd (run 2 (GetProp "watcher" Ret) Example.chained) in
  let r := run 3 (SetProp "a" (VNum 7) (Ret tt)) w in
  Dep w = None
  ∧ sub_id <$> deps_of (props w) "a" = ["watcher"]
  ∧ sub_id <$> deps_of (props w) "b" = []
  ∧ fst r = Done tt
  ∧ sub_id <$> deps_of (props (snd r)) "b" = ["total"].
Proof. vm_compute. by split_and!. Qed.

(** ** The demo *)

(** C10: the demo prints [0] for its one explicit read of [doneCount],
    nothing else up to that point, and then one line per later assignment to
    [todos], counting 1, 2 and 3. *)
Theorem demo_output fuel :
  (λ r : Outcome Value * World, (fst r, console (snd r)))
    <$> Demo.script (S (S fuel)) Demo.main_until_read
  = Some (Done (VNum 0), [])
  ∧ (λ r : Outcome unit * World, (fst r, console (snd r)))
      <$> Demo.script (S (S (S fuel))) Demo.main
    = Some (Done tt,
            [VNum 0;
             VStr "new done count is 1";
             VStr "new done count is 2";
             VStr "new done count is 3"]).
Proof. split; vm_compute; reflexivity. Qed.

(** ** Bodies that throw *)

Lemma flat_error_ext {A} ps ps' (p : Prog A) :
  same_view ps ps' → flat_error ps p = flat_error ps' p.
Proof.
  intros Hv. induction p as [| |k cont IH| | |]; simpl; try done.
  rewrite (Hv k). destruct (peek ps' k); [apply IH | done].
Qed.

(** A body that throws after flat steps: the exception comes out whatever
    [call] is, the marker is kept, and the world has changed only by what
    was collected, printed and counted on the way. *)
Lemma run_flat_throw call {A} (p : Prog A) : ∀ w e,
  flat_error (props w) p = Some e →
  ∃ w', run_body call p w = (Thrown e, w')
    ∧ Dep w' = Dep w
    ∧ (∀ k, props w' !! k
            = touch (Dep w) (bool_decide (k ∈ reads (props w) p)) (props w !! k))
    ∧ console w' = console w ++ logs (props w) p.
Proof.
  induction p as [a0|e0|k cont IH|k v cont IH|v cont IH|y cont IH];
    intros w e Herr; simpl in Herr; try done.
  - injection Herr as ->. exists w. simpl. split_and!; try done.
    + intros k. by destruct (props w !! k) as [[]|].
    + by rewrite app_nil_r.
  - simpl. unfold peek in *.
    destruct (props w !! k) as [[v|val deps|s]|] eqn:Hk; try done.
    + destruct (IH v w e Herr) as (w' & Hrun & HDep & Hprops & Hcon).
      exists w'. split_and!; try done.
      intros k'. rewrite Hprops.
      destruct (decide (k' = k)) as [->|Hne].
      * rewrite Hk. done.
      * destruct (props w !! k') as [[]|]; try done.
        apply f_equal2; [|done]. f_equal.
        apply bool_decide_ext. rewrite elem_of_cons. naive_solver.
    + set (w1 := set_prop k (Reactive val (collect (Dep w) deps)) w).
      assert (same_view (props w1) (props w)) as Hview
        by (by eapply same_view_collect).
      rewrite <-(flat_error_ext _ _ _ Hview) in Herr.
      destruct (IH val w1 e Herr) as (w' & Hrun & HDep & Hprops & Hcon).
      exists w'. rewrite (reads_ext _ _ _ Hview) in Hprops.
      rewrite (logs_ext _ _ _ Hview) in Hcon.
      split_and!; try done.
      intros k'. rewrite Hprops. subst w1. simpl.
      destruct (decide (k' = k)) as [->|Hne].
      * rewrite lookup_insert_eq, Hk. simpl.
        rewrite (bool_decide_eq_true_2 (k ∈ k :: _))
          by (apply elem_of_cons; by left).
        rewrite collect_idem. by case_bool_decide.
      * rewrite lookup_insert_ne by done.
        destruct (props w !! k') as [[]|]; try done.
        apply f_equal2; [|done]. f_equal.
        apply bool_decide_ext. rewrite elem_of_cons. naive_solver.
    + destruct (IH VUndef w e Herr) as (w' & Hrun & HDep & Hprops & Hcon).
      exists w'. split_and!; try done.
      intros k'. rewrite Hprops.
      destruct (decide (k' = k)) as [->|Hne].
      * by rewrite Hk.
      * destruct (props w !! k') as [[]|]; try done.
        apply f_equal2; [|done]. f_equal.
        apply bool_decide_ext. rewrite elem_of_cons. naive_solver.
  - destruct (IH (print v w) e Herr) as (w' & Hrun & HDep & Hprops & Hcon).
    exists w'. simpl in *. split_and!; try done.
    by rewrite Hcon, <-app_assoc.
  - destruct (IH (bump y w) e Herr) as (w' & Hrun & HDep & Hprops & Hcon).
    exists w'. simpl in *. by split_and!.
Qed.

Lemma run_body_get_reactive call {A} k val deps (cont : Value → Prog A) w :
  props w !! k = Some (Reactive val deps) →
  run_body call (GetProp k cont) w
  = run_body call (cont val)
      (set_prop k (Reactive val (collect (Dep w) deps)) w).
Proof. intros Hk. simpl. by rewrite Hk. Qed.

(** ** The marker, in general *)

(** X1: nothing but the computed getter changes [Dep].  After any code
    (reads, writes, notifications, callbacks), [Dep] is what the last
    getter event left in it: the subscriber of the cell, if a getter was
    entered and its derivation did not return; empty, if a getter was
    left; and what it was before, if no computed cell was read. *)
Theorem marker_follows_getter_events fuel {A} (p : Prog A) w :
  Dep (snd (run fuel p w)) = marker_after (Dep w) (getter_events fuel p w).
Proof.
  unfold getter_events. rewrite <-(run_traced_erase fuel A p w []).
  apply run_traced_marker.
Qed.

(** X2: no collection ever holds a closure twice: definitions start
    collections empty, and whatever runs keeps them free of duplicates. *)
Theorem collections_stay_unique :
  deps_unique (props initial)
  ∧ (∀ key val w w',
       defineReactive key val w = Some w' →
       deps_unique (props w) → deps_unique (props w'))
  ∧ (∀ key fn cb w w',
       defineComputed key fn cb w = Some w' →
       deps_unique (props w) → deps_unique (props w'))
  ∧ (∀ fuel A (p : Prog A) w,
       deps_unique (props w) → deps_unique (props (snd (run fuel p w)))).
Proof.
  split_and!.
  - apply deps_unique_initial.
  - apply deps_unique_defineReactive.
  - apply deps_unique_defineComputed.
  - intros fuel A p w. apply deps_unique_run.
Qed.

Lemma collections_stay_unique_witness :
  deps_unique (props (snd (run 2 (GetProp "first" Ret) Example.pair))).
Proof.
  destruct collections_stay_unique as (Hinit & Hreactive & Hcomputed & Hrun).
  apply (Hrun 2 Value (GetProp "first" Ret) Example.pair).
  apply (Hcomputed "second" (Example.counted "n2" "r")
           (Some (Example.say "second"))
           (Example.setup
              [defineReactive "r" (VNum 1);
               defineComputed "first" (Example.counted "n1" "r")
                 (Some (Example.say "first"))])
           Example.pair eq_refl).
  apply (Hcomputed "first" (Example.counted "n1" "r")
           (Some (Example.say "first"))
           (Example.setup [defineReactive "r" (VNum 1)]) _ eq_refl).
  apply (Hreactive "r" (VNum 1) initial _ eq_refl).
  exact Hinit.
Defined.

(** ** A derivation that throws *)

(** X3: when the derivation of a computed cell throws, the read throws the
    same exception and the marker stays set to that cell's subscriber; no
    value has changed.  A reactive-cell read made afterwards, outside any
    derivation, then collects that subscriber. *)
Theorem throwing_derivation_leaves_marker fuel k s w e :
  props w !! k = Some (Computed s) →
  flat_error (props w) (computeFn s) = Some e →
  ∃ w',
    run (S (S fuel)) (GetProp k Ret) w = (Thrown e, w')
    ∧ Dep w' = Some s
    ∧ same_view (props w') (props w)
    ∧ ∀ fuel' r val deps,
        props w' !! r = Some (Reactive val deps) →
        ∃ w'', run (S fuel') (GetProp r Ret) w' = (Done val, w'')
               ∧ deps_of (props w'') r = collect (Some s) deps.
Proof.
  intros Hk Herr. rewrite run_S, (run_body_get_computed _ k s _ w Hk).
  unfold computed_get. rewrite run_S.
  destruct (run_flat_throw (@run fuel) (computeFn s) (set_Dep (Some s) w)
              e Herr) as (w' & -> & HDep & Hprops & _).
  simpl in HDep, Hprops. exists w'. split_and!; [done | done | |].
  - exact (touch_same_view _ _ _ (λ r, bool_decide (r ∈ _)) Hprops).
  - intros fuel' r val deps Hr.
    rewrite run_S, (run_body_get_reactive _ r val deps _ w' Hr). simpl.
    eexists. split; [done|]. simpl. by rewrite HDep, deps_of_insert_eq.
Qed.

Lemma throwing_derivation_leaves_marker_witness :
  ∃ w',
    run 2 (GetProp "doneCount" Ret) Example.unset
    = (Thrown Demo.TypeError, w')
    ∧ sub_id <$> Dep w' = Some "doneCount".
Proof.
  destruct (throwing_derivation_leaves_marker 0 "doneCount"
              (mkSub "doneCount" Demo.countDone Demo.announce)
              Example.unset Demo.TypeError)
    as (w' & Hrun & HDep & _).
  - reflexivity.
  - reflexivity.
  - exists w'. split; [exact Hrun|]. rewrite HDep. reflexivity.
Defined.

(** ** A computed cell that reads itself *)

(** X4: there is no cycle detection.  A computed cell whose derivation
    starts by reading the cell itself never returns: the read nests deeper
    than any bound on the call depth. *)
Theorem self_reading_cell_never_returns fuel k s cont w :
  props w !! k = Some (Computed s) →
  computeFn s = GetProp k cont →
  fst (run fuel (GetProp k Ret) w) = OutOfFuel.
Proof.
  intros Hk Hs.
  assert (∀ fuel A (c : Value → Prog A) w,
            props w !! k = Some (Computed s) →
            fst (run fuel (GetProp k c) w) = OutOfFuel) as Hloop.
  { clear fuel w Hk.
    induction fuel as [|fuel IH]; intros A c w Hk; [done|].
    rewrite run_S, (run_body_get_computed _ k s c w Hk).
    unfold computed_get. rewrite Hs.
    specialize (IH Value cont (set_Dep (Some s) w) Hk).
    destruct (run fuel (GetProp k cont) (set_Dep (Some s) w))
      as [[value| |] w2]; simpl in *; done. }
  by apply Hloop.
Qed.

Lemma self_reading_cell_never_returns_witness :
  fst (run 50 (GetProp "loop" Ret) Scenario.looping) = OutOfFuel.
Proof.
  apply (self_reading_cell_never_returns 50 "loop"
           (mkSub "loop" (GetProp "loop" Ret) noop) Ret).
  - reflexivity.
  - reflexivity.
Defined.

(** ** Writes, then reads *)

(** X5: what is written to a reactive cell is what a read right after the
    write returns (the subscribers' derivations and callbacks being flat);
    apart from the new value nothing in the owner object has changed. *)
Theorem write_then_read fuel r val deps v w :
  props w !! r = Some (Reactive val deps) →
  Dep w = None →
  Forall (flat_sub (<[r := Reactive v deps]> (props w))) deps →
  ∃ w',
    run (S (S fuel)) (SetProp r v (GetProp r Ret)) w = (Done v, w')
    ∧ props w' = <[r := Reactive v deps]> (props w).
Proof.
  intros Hr HDep Hall. rewrite run_S.
  destruct (write_flat fuel r val deps v (GetProp r Ret) w Hr HDep Hall)
    as (w1 & -> & HDep1 & Hprops1 & _).
  assert (props w1 !! r = Some (Reactive v deps)) as Hr1
    by (by rewrite Hprops1, lookup_insert_eq).
  rewrite (run_body_get_reactive _ r v deps _ w1 Hr1), HDep1. simpl.
  eexists. split; [done|]. simpl. rewrite insert_id by done. done.
Qed.

Lemma write_then_read_witness :
  ∃ w',
    run 2 (SetProp "r" (VNum 10) (GetProp "r" Ret)) Scenario.subscribed
    = (Done (VNum 10), w').
Proof.
  destruct (write_then_read 0 "r" (VNum 1)
              [mkSub "first" (Example.counted "n1" "r") (Example.say "first");
               mkSub "second" (Example.counted "n2" "r")
                     (Example.say "second")]
              (VNum 10) Scenario.subscribed)
    as (w' & Hrun & _).
  - reflexivity.
  - reflexivity.
  - repeat constructor; exists (VNum 10); split; reflexivity.
  - exists w'. exact Hrun.
Defined.



(** ** What a computed read touches *)

(** X7: a read of a computed cell returns the value of its derivation
    without calling the change callback: whatever the callback is, the
    read prints only what the derivation prints, changes no value, and
    leaves alone every property the derivation did not read. *)
Theorem computed_read_frame fuel k s w a :
  props w !! k = Some (Computed s) →
  flat_value (props w) (computeFn s) = Some a →
  ∃ w',
    run (S (S fuel)) (GetProp k Ret) w = (Done a, w')
    ∧ console w' = console w ++ logs (props w) (computeFn s)
    ∧ same_view (props w') (props w)
    ∧ ∀ r, r ∉ reads (props w) (computeFn s) → props w' !! r = props w !! r.
Proof.
  intros Hk Hflat.
  destruct (computed_read_flat fuel k s w a Hk Hflat)
    as (w' & Hrun & _ & Hprops & Hcon & _).
  exists w'. split_and!; [done | done | |].
  - exact (touch_same_view _ _ _ (λ r, bool_decide (r ∈ _)) Hprops).
  - intros r Hr. rewrite Hprops, bool_decide_eq_false_2 by done.
    by destruct (props w !! r) as [[]|].
Qed.

Lemma computed_read_frame_witness :
  ∃ w',
    run 2 (GetProp "doneCount" Ret) Scenario.watching = (Done (VNum 0), w')
    ∧ console w' = []
    ∧ props w' !! "other" = props Scenario.watching !! "other".
Proof.
  destruct (computed_read_frame 0 "doneCount"
              (mkSub "doneCount" Demo.countDone Demo.announce)
              Scenario.watching (VNum 0))
    as (w' & Hrun & Hcon & _ & Hframe).
  - reflexivity.
  - reflexivity.
  - exists w'. split; [exact Hrun|]. split; [rewrite Hcon; reflexivity|].
    apply Hframe. vm_compute.
    intros [H|H%elem_of_nil]%elem_of_cons; [discriminate H | exact H].
Defined.

(** X8: reading a computed cell again registers nothing new: after a second
    read in a row the owner object is the one the first read left. *)
Theorem rereading_registers_nothing_new fuel k s w a :
  props w !! k = Some (Computed s) →
  flat_value (props w) (computeFn s) = Some a →
  ∃ w1 w2,
    run (S (S fuel)) (GetProp k Ret) w = (Done a, w1)
    ∧ run (S (S fuel)) (GetProp k Ret) w1 = (Done a, w2)
    ∧ props w2 = props w1.
Proof.
  intros Hk Hflat.
  destruct (computed_read_flat fuel k s w a Hk Hflat)
    as (w1 & Hrun1 & _ & Hprops1 & _).
  pose proof (touch_same_view _ _ _ (λ r, bool_decide (r ∈ _)) Hprops1)
    as Hview.
  assert (props w1 !! k = Some (Computed s)) as Hk1
    by (by rewrite Hprops1, Hk).
  rewrite <-(flat_value_ext _ _ _ Hview) in Hflat.
  destruct (computed_read_flat fuel k s w1 a Hk1 Hflat)
    as (w2 & Hrun2 & _ & Hprops2 & _).
  exists w1, w2. split_and!; [done | done |].
  apply map_eq. intros r. rewrite Hprops2, (reads_ext _ _ _ Hview), Hprops1.
  destruct (props w !! r) as [[]|]; unfold touch; try done.
  case_bool_decide; [|done]. by rewrite collect_idem.
Qed.

Lemma rereading_registers_nothing_new_witness :
  ∃ w1 w2,
    run 2 (GetProp "first" Ret) Example.pair = (Done (VNum 1), w1)
    ∧ run 2 (GetProp "first" Ret) w1 = (Done (VNum 1), w2)
    ∧ props w2 = props w1.
Proof.
  apply (rereading_registers_nothing_new 0 "first"
           (mkSub "first" (Example.counted "n1" "r") (Example.say "first"))
           Example.pair (VNum 1)).
  - reflexivity.
  - reflexivity.
Defined.



(** ** A subscriber that throws *)

(** X10: when the derivation of a subscriber throws during a write, the
    write throws that exception at once: the subscribers after it are not
    notified and the rest of the writing body does not run, yet the new
    value is stored. *)
Theorem throwing_subscriber_aborts_write fuel {A} r val before s after v e
    (cont : Prog A) w :
  props w !! r = Some (Reactive val (before ++ s :: after)) →
  Dep w = None →
  Forall (flat_sub (<[r := Reactive v (before ++ s :: after)]> (props w)))
         before →
  flat_error (<[r := Reactive v (before ++ s :: after)]> (props w))
             (computeFn s) = Some e →
  ∃ w',
    run (S (S fuel)) (SetProp r v cont) w = (Thrown e, w')
    ∧ props w' = <[r := Reactive v (before ++ s :: after)]> (props w)
    ∧ console w'
      = console w
        ++ concat (notice (<[r := Reactive v (before ++ s :: after)]> (props w))
                     <$> before)
        ++ logs (<[r := Reactive v (before ++ s :: after)]> (props w))
             (computeFn s).
Proof.
  intros Hr HDep Hbefore Herr.
  set (deps := before ++ s :: after) in *.
  set (w0 := set_prop r (Reactive v deps) w).
  destruct (forEach_flat (@run (S fuel)) (@run fuel) (run_S fuel) before
              w0 HDep Hbefore) as (wb & Hbef & HDepb & Hpropsb & Hconb).
  change (props w0) with (<[r := Reactive v deps]> (props w)) in *.
  rewrite <-Hpropsb in Herr.
  destruct (run_flat_throw (@run fuel) (computeFn s) wb e Herr)
    as (w1 & Hderiv & _ & Hprops1 & Hcon1).
  rewrite HDepb in Hprops1.
  apply (touch_None_eq _ _ (λ k, bool_decide (k ∈ _))) in Hprops1.
  exists w1. split_and!.
  - rewrite run_S, (run_body_set_reactive _ r val deps v cont w Hr).
    unfold reactive_set. fold w0. unfold deps at 1.
    rewrite forEach_app. fold deps. rewrite Hbef. simpl.
    unfold onDependencyUpdated. by rewrite run_S, Hderiv.
  - congruence.
  - rewrite Hcon1, Hconb, Hpropsb. by rewrite app_assoc.
Qed.

Lemma throwing_subscriber_aborts_write_witness :
  ∃ w',
    run 2 (SetProp "todos" VNull (Log (VStr "written") (Ret tt)))
      Scenario.watching
    = (Thrown Demo.TypeError, w')
    ∧ peek (props w') "todos" = Some VNull
    ∧ console w' = [].
Proof.
  destruct (throwing_subscriber_aborts_write 0 "todos"
              (Demo.todos false false false) []
              (mkSub "doneCount" Demo.countDone Demo.announce) []
              VNull Demo.TypeError (Log (VStr "written") (Ret tt))
              Scenario.watching)
    as (w' & Hrun & Hprops & Hcon).
  - reflexivity.
  - reflexivity.
  - constructor.
  - reflexivity.
  - exists w'. split; [exact Hrun|]. split.
    + rewrite Hprops. reflexivity.
    + rewrite Hcon. reflexivity.
Defined.

(** ** A change callback that reads its own cell *)

(** X11: the demo's way of writing a change callback, for any cell: the
    callback ignores its argument and reads the computed property again.
    A write then runs the derivation twice (once for the notification,
    once for the callback's read), prints what [f] makes of the value for
    the new state, and the callback's read registers the subscriber on
    everything the derivation reads now. *)
Theorem rereading_callback_notification fuel r val k s f v a w :
  props w !! r = Some (Reactive val [s]) →
  props w !! k = Some (Computed s) →
  Dep w = None →
  updateCallback s = (fun _ => GetProp k (fun n => Log (f n) (Ret tt))) →
  flat_value (<[r := Reactive v [s]]> (props w)) (computeFn s) = Some a →
  ∃ w',
    run (S (S (S fuel))) (SetProp r v (Ret tt)) w = (Done tt, w')
    ∧ Dep w' = None
    ∧ console w'
      = console w
        ++ logs (<[r := Reactive v [s]]> (props w)) (computeFn s)
        ++ logs (<[r := Reactive v [s]]> (props w)) (computeFn s)
        ++ [f a]
    ∧ ∀ r', props w' !! r'
            = touch (Some s)
                (bool_decide
                   (r' ∈ reads (<[r := Reactive v [s]]> (props w))
                           (computeFn s)))
                (<[r := Reactive v [s]]> (props w) !! r').
Proof.
  intros Hr Hk HDep Hcb Hflat.
  set (ps0 := <[r := Reactive v [s]]> (props w)) in *.
  set (w0 := set_prop r (Reactive v [s]) w).
  assert (r ≠ k) as Hne by (intros ->; congruence).
  rewrite run_S, (run_body_set_reactive _ r val [s] v (Ret tt) w Hr).
  unfold reactive_set. fold w0. simpl. unfold onDependencyUpdated.
  rewrite (run_S (S fuel)).
  destruct (run_flat (@run (S fuel)) (computeFn s) w0 a Hflat)
    as (w1 & -> & HDep1 & Hprops1 & Hcon1 & _).
  simpl in HDep1, Hprops1, Hcon1. rewrite HDep in Hprops1, HDep1.
  apply (touch_None_eq _ _ (λ k, bool_decide (k ∈ _))) in Hprops1.
  fold ps0 in Hprops1, Hcon1.
  rewrite Hcb, (run_S (S fuel)).
  assert (props w1 !! k = Some (Computed s)) as Hk1.
  { rewrite Hprops1. unfold ps0. by rewrite lookup_insert_ne. }
  rewrite <-Hprops1 in Hflat.
  destruct (computed_read_step fuel k s (fun n => Log (f n) (Ret tt)) w1 a
              Hk1 Hflat) as (w2 & -> & HDep2 & Hprops2 & Hcon2).
  simpl. eexists. split; [done|]. simpl. split_and!; [done | |].
  - rewrite Hcon2, Hcon1, Hprops1. by rewrite <-!app_assoc.
  - intros r'. by rewrite Hprops2, Hprops1.
Qed.

Lemma rereading_callback_notification_witness :
  ∃ w',
    run 3 (SetProp "todos" (Demo.todos true false true) (Ret tt))
      Scenario.watching
    = (Done tt, w')
    ∧ console w' = [VStr "new done count is 2"].
Proof.
  destruct (rereading_callback_notification 0 "todos"
              (Demo.todos false false false) "doneCount"
              (mkSub "doneCount" Demo.countDone Demo.announce)
              (fun n => VStr ("new done count is " +:+ to_string n))
              (Demo.todos true false true) (VNum 2) Scenario.watching)
    as (w' & Hrun & _ & Hcon & _).
  - reflexivity.
  - reflexivity.
  - reflexivity.
  - reflexivity.
  - reflexivity.
  - exists w'. split; [exact Hrun|]. rewrite Hcon. reflexivity.
Defined.

(** ** A computed cell that was never read *)

(** X12: defining a computed cell subscribes it to nothing.  After the two
    definitions alone, the reactive cell has no subscriber, and a write to
    it only stores the value: no derivation runs and no callback fires
    until the computed cell has been read.  (Should the second definition
    replace the first on the same key, the property is computed and the
    write does nothing at all.) *)
Theorem unread_cell_is_not_notified fuel r v0 k fn cb v w w1 w2 :
  defineReactive r v0 w = Some w1 →
  defineComputed k fn cb w1 = Some w2 →
  deps_of (props w2) r = []
  ∧ run (S fuel) (SetProp r v (Ret tt)) w2
    = (Done tt, if decide (r = k) then w2 else set_prop r (Reactive v []) w2).
Proof.
  unfold defineReactive, defineComputed.
  destruct (definable r w); [|done]. intros [= <-].
  destruct (definable k _); [|done]. intros [= <-].
  destruct (decide (r = k)) as [<-|Hne].
  - split.
    + unfold deps_of. simpl. by rewrite lookup_insert_eq.
    + rewrite run_S. simpl. by rewrite lookup_insert_eq.
  - split.
    + simpl. by rewrite deps_of_insert_ne, deps_of_insert_eq.
    + rewrite run_S.
      erewrite run_body_set_reactive
        by (simpl; rewrite lookup_insert_ne by done; apply lookup_insert_eq).
      done.
Qed.

Lemma unread_cell_is_not_notified_witness :
  let w2 :=
    Example.setup [defineReactive "r" (VNum 1);
                   defineComputed "first" (Example.counted "n1" "r")
                     (Some (Example.say "first"))] in
  deps_of (props w2) "r" = []
  ∧ run 1 (SetProp "r" (VNum 10) (Ret tt)) w2
    = (Done tt, set_prop "r" (Reactive (VNum 10) []) w2).
Proof.
  intros w2.
  exact (unread_cell_is_not_notified 0 "r" (VNum 1) "first"
           (Example.counted "n1" "r") (Some (Example.say "first"))
           (VNum 10) initial
           (Example.setup [defineReactive "r" (VNum 1)]) w2
           eq_refl eq_refl).
Defined.

(** ** The reactive property without dependency tracking *)

(** X13: for the [defineReactive] of [src/unnamed/part_000]: a property
    reads as the value it was defined with ([undefined] when none was
    given: there is no default); what is assigned is what is read next,
    other properties being left alone.  An assignment keeps the accessor
    and its attributes: defined on a key the object did not have, the
    property cannot be defined a second time; defined over a data
    property, it can, and then reads as the new value. *)
Theorem simple_reactive_round_trip key (obj : gmap string Simple.Slot) :
  (∀ val obj',
     Simple.defineReactive key val obj = Some obj' →
     Simple.get key obj' = val)
  ∧ (∀ v, Simple.get key (Simple.set key v obj) = v)
  ∧ (∀ v key', key' ≠ key →
       Simple.get key' (Simple.set key v obj) = Simple.get key' obj)
  ∧ (∀ val obj' v val',
       obj !! key = None →
       Simple.defineReactive key val obj = Some obj' →
       Simple.defineReactive key val' obj' = None
       ∧ Simple.defineReactive key val' (Simple.set key v obj') = None)
  ∧ (∀ v0 val obj' v val',
       obj !! key = Some (Simple.Data v0) →
       Simple.defineReactive key val obj = Some obj' →
       ∃ obj'',
         Simple.defineReactive key val' (Simple.set key v obj') = Some obj''
         ∧ Simple.get key obj'' = val').
Proof.
  split_and!.
  - intros val obj'. unfold Simple.defineReactive, Simple.get.
    destruct (obj !! key) as [[|[]]|]; try done; intros [= <-];
      by rewrite lookup_insert_eq.
  - intros v. unfold Simple.get, Simple.set.
    destruct (obj !! key) as [[]|]; by rewrite lookup_insert_eq.
  - intros v key' Hne. unfold Simple.get, Simple.set.
    destruct (obj !! key) as [[]|]; by rewrite lookup_insert_ne.
  - intros val obj' v val' Hnew. unfold Simple.defineReactive at 1.
    rewrite Hnew. intros [= <-].
    unfold Simple.defineReactive, Simple.set.
    repeat (progress (rewrite ?lookup_insert_eq; simpl)). done.
  - intros v0 val obj' v val' Hdata. unfold Simple.defineReactive at 1.
    rewrite Hdata. intros [= <-].
    unfold Simple.defineReactive, Simple.set, Simple.get.
    repeat (progress (rewrite ?lookup_insert_eq; simpl)).
    eexists. split; [done|]. by rewrite lookup_insert_eq.
Qed.

Lemma simple_reactive_round_trip_witness :
  Simple.demo = Some [VNum 123]
  ∧ Simple.defineReactive "foo" (VNum 3)
      (Simple.set "foo" (VNum 7) (<[ "foo" := Simple.Accessor false (VNum 123) ]> ∅))
    = None.
Proof.
  split; [reflexivity|].
  exact (proj2 (proj1 (proj2 (proj2 (proj2
           (simple_reactive_round_trip "foo" ∅))))
           (VNum 123) (<[ "foo" := Simple.Accessor false (VNum 123) ]> ∅)
           (VNum 7) (VNum 3) eq_refl eq_refl)).
Defined.

(** ** Defining a property twice *)

(** X14: [Object.defineProperty] locks an accessor it installs on a key the
    object did not have, and nothing that runs afterwards (reads, writes,
    notifications) unlocks or removes it: a later [defineReactive] or
    [defineComputed] on that key fails.  An accessor installed over a
    configurable property stays configurable whatever runs, and can be
    defined again. *)
Theorem accessor_is_defined_once k w w1 :
  (∃ val, defineReactive k val w = Some w1)
  ∨ (∃ fn cb, defineComputed k fn cb w = Some w1) →
  (props w !! k = None →
   ∀ fuel A (p : Prog A) val fn cb,
     defineReactive k val (snd (run fuel p w1)) = None
     ∧ defineComputed k fn cb (snd (run fuel p w1)) = None)
  ∧ (is_Some (props w !! k) →
     ∀ fuel A (p : Prog A) val fn cb,
       is_Some (defineReactive k val (snd (run fuel p w1)))
       ∧ is_Some (defineComputed k fn cb (snd (run fuel p w1)))).
Proof.
  intros Hdef.
  assert (is_Some (props w1 !! k)
          ∧ (props w !! k = None → k ∈ locked w1)
          ∧ (is_Some (props w !! k) → k ∉ locked w1)) as (Hhas & Hnew & Hold).
  { destruct Hdef as [[v0 Hdef]|(fn0 & cb0 & Hdef)];
      [unfold defineReactive in Hdef | unfold defineComputed in Hdef];
      unfold definable in Hdef;
      (destruct (props w !! k) as [p0|] eqn:Hk;
       [case_bool_decide; [|done]|]);
      injection Hdef as <-; simpl; rewrite ?Hk, lookup_insert_eq;
      (split_and!; [done | |]);
      try (by intros _; apply elem_of_union_l, elem_of_singleton);
      try (by intros ?); try (by intros [? [=]]). }
  assert (∀ fuel A (p : Prog A),
            is_Some (props (snd (run fuel p w1)) !! k)
            ∧ locked (snd (run fuel p w1)) = locked w1) as Hkeep.
  { intros fuel A p.
    apply (run_keeps (λ w', is_Some (props w' !! k) ∧ locked w' = locked w1));
      try done.
    - intros w' k' val' deps [HP ?] Hk'. split; [|done]. simpl.
      destruct (decide (k' = k)) as [->|Hne].
      + by rewrite lookup_insert_eq.
      + by rewrite lookup_insert_ne.
    - intros w' k' val' deps v [HP ?] Hk'. split; [|done]. simpl.
      destruct (decide (k' = k)) as [->|Hne].
      + by rewrite lookup_insert_eq.
      + by rewrite lookup_insert_ne.
    - intros w' k' v [HP ?] Hk'. split; [|done]. simpl.
      destruct (decide (k' = k)) as [->|Hne].
      + by rewrite lookup_insert_eq.
      + by rewrite lookup_insert_ne. }
  split.
  - intros Hnone fuel A p val fn cb.
    destruct (Hkeep fuel A p) as [[p' Hp'] Hlocked].
    unfold defineReactive, defineComputed, definable.
    rewrite Hp', Hlocked, bool_decide_eq_false_2; [done|].
    intros Hout. by apply Hout, Hnew.
  - intros Hsome fuel A p val fn cb.
    destruct (Hkeep fuel A p) as [[p' Hp'] Hlocked].
    unfold defineReactive, defineComputed, definable.
    rewrite Hp', Hlocked, bool_decide_eq_true_2 by (by apply Hold).
    split; eauto.
Qed.

Lemma accessor_is_defined_once_witness :
  defineReactive "todos" (VNum 1) (snd (run 3 Demo.main Example.unset)) = None
  ∧ defineComputed "todos" (Ret VNull) None
      (snd (run 3 Demo.main Example.unset)) = None.
Proof.
  apply (accessor_is_defined_once "todos"
           (Example.setup
              [defineComputed "doneCount" Demo.countDone (Some Demo.announce);
               defineReactive "other" (VNum 5)])
           Example.unset).
  - left. exists VUndef. vm_compute. reflexivity.
  - reflexivity.
Defined.
